(** * RePath: path resolution and reference rewriting

    A shallow embedding of the RePath extension's core:
    - [PathResolver]: [formatRobloxName], [findPathInTree],
      [convertToRobloxPath];
    - [Refactor]: [applyRefactorOnText], [applyNestedRefactoring],
      [parseVariablesToAbsoluteMap] and the per-file loop over moves;
    - [IgnoreManager]: [getIgnore].

    JavaScript strings are modelled as lists of code units below 256
    ([list ascii]); the string methods and the regular expressions the
    source uses are written out in module [JS] and next to the function
    that owns the regular expression.  File-system and library calls
    are inputs: the parsed project tree, the outcome of reading the
    ignore file, the ignore library as an interface.  [path] is the
    POSIX flavour of the module.  The two declaration patterns that
    [applyRefactorOnText] builds from a service name are modelled for
    names without syntax characters of regular expressions. *)

From Stdlib Require Import List Ascii String Bool Arith Lia NArith.
From Stdlib Require Import Permutation Sorted.
Import ListNotations.

Open Scope char_scope.
Open Scope list_scope.

(* ================================================================= *)
(** ** JavaScript strings *)

Module JS.

Definition jsstring := list ascii.

(** A string literal of the source. *)
Definition str (s : string) : jsstring := list_ascii_of_string s.

(** The double quote, written by its code. *)
Definition dquote : ascii := "034".

Definition code (c : ascii) : N := N_of_ascii c.

(** LineTerminator: LF and CR (U+2028 and U+2029 are outside the model). *)
Definition isLineTerminator (c : ascii) : bool :=
  (code c =? 10)%N || (code c =? 13)%N.

(** [\s]: WhiteSpace and LineTerminator below 256: TAB, LF, VT, FF, CR,
    SP and NBSP. *)
Definition isSpace (c : ascii) : bool :=
  ((9 <=? code c)%N && (code c <=? 13)%N)
  || (code c =? 32)%N || (code c =? 160)%N.

Definition isUpper (c : ascii) : bool := (65 <=? code c)%N && (code c <=? 90)%N.
Definition isLower (c : ascii) : bool := (97 <=? code c)%N && (code c <=? 122)%N.
Definition isDigit (c : ascii) : bool := (48 <=? code c)%N && (code c <=? 57)%N.

(** [[a-zA-Z_]] *)
Definition isIdentStart (c : ascii) : bool :=
  isLower c || isUpper c || Ascii.eqb c "_".

(** [\w] *)
Definition isWord (c : ascii) : bool := isIdentStart c || isDigit c.

(** The pattern characters with a meaning of their own in a regular
    expression (SyntaxCharacter). *)
Definition isSyntaxCharacter (c : ascii) : bool :=
  existsb (Ascii.eqb c)
    ["^"; "$"; "\"; "."; "*"; "+"; "?"; "("; ")"; "["; "]"; "{"; "}"; "|"].

(** A string that, spliced into a pattern, matches itself and nothing
    else. *)
Definition regexPlain (s : jsstring) : bool :=
  forallb (fun c => negb (isSyntaxCharacter c)) s.

(** String equality ([==] and [===] on two strings). *)
Fixpoint eqs (a b : jsstring) : bool :=
  match a, b with
  | [], [] => true
  | c :: a', d :: b' => Ascii.eqb c d && eqs a' b'
  | _, _ => false
  end.

(** [s.startsWith(p)] *)
Fixpoint startsWith (s p : jsstring) {struct p} : bool :=
  match p with
  | [] => true
  | c :: p' =>
      match s with
      | [] => false
      | d :: s' => Ascii.eqb d c && startsWith s' p'
      end
  end.

(** [s.endsWith(p)] *)
Definition endsWith (s p : jsstring) : bool := startsWith (rev s) (rev p).

(** [s.includes(p)] *)
Fixpoint includes (s p : jsstring) : bool :=
  startsWith s p ||
  match s with
  | [] => false
  | _ :: s' => includes s' p
  end.

(** The rest of [s] after the literal [p], when [s] starts with it. *)
Fixpoint stripPrefix (p s : jsstring) : option jsstring :=
  match p with
  | [] => Some s
  | c :: p' =>
      match s with
      | [] => None
      | d :: s' => if Ascii.eqb d c then stripPrefix p' s' else None
      end
  end.

Fixpoint takeWhile (f : ascii -> bool) (s : jsstring) : jsstring :=
  match s with
  | [] => []
  | c :: s' => if f c then c :: takeWhile f s' else []
  end.

Fixpoint dropWhile (f : ascii -> bool) (s : jsstring) : jsstring :=
  match s with
  | [] => []
  | c :: s' => if f c then dropWhile f s' else s
  end.

(** [s.trim()] *)
Definition trim (s : jsstring) : jsstring :=
  rev (dropWhile isSpace (rev (dropWhile isSpace s))).

(** [s.slice(0, -1)] *)
Definition dropLast (s : jsstring) : jsstring := removelast s.

(** One code unit of [s.toLowerCase()]: A-Z, and the Latin-1 capitals
    U+00C0..U+00DE but the multiplication sign. *)
Definition lowerChar (c : ascii) : ascii :=
  if isUpper c
     || ((192 <=? code c)%N && (code c <=? 222)%N && negb (code c =? 215)%N)
  then ascii_of_N (code c + 32) else c.

(** [s.toLowerCase()] *)
Definition toLowerCase (s : jsstring) : jsstring := map lowerChar s.

(** [s.lastIndexOf(c)] for a one-character [c]; [None] is -1. *)
Fixpoint lastIndexOf (c : ascii) (s : jsstring) : option nat :=
  match s with
  | [] => None
  | d :: s' =>
      match lastIndexOf c s' with
      | Some i => Some (S i)
      | None => if Ascii.eqb d c then Some 0 else None
      end
  end.

(** [s.substring(0, i)] and [s.substring(i)] *)
Definition substringTo (i : nat) (s : jsstring) : jsstring := firstn i s.
Definition substringFrom (i : nat) (s : jsstring) : jsstring := skipn i s.

(** [s.split(c)] for a one-character separator. *)
Fixpoint split (sep : ascii) (s : jsstring) : list jsstring :=
  match s with
  | [] => [[]]
  | c :: s' =>
      if Ascii.eqb c sep then [] :: split sep s'
      else match split sep s' with
           | h :: t => (c :: h) :: t
           | [] => [[c]]
           end
  end.

(** [parts.join(sep)] *)
Fixpoint join (sep : jsstring) (parts : list jsstring) : jsstring :=
  match parts with
  | [] => []
  | [p] => p
  | p :: rest => p ++ sep ++ join sep rest
  end.

(** [s.split(p)[0]] for a non-empty separator [p]: what precedes the
    first occurrence of [p], the whole of [s] when there is none. *)
Fixpoint splitHead (p s : jsstring) : jsstring :=
  if startsWith s p then []
  else match s with
       | [] => []
       | c :: s' => c :: splitHead p s'
       end.

(** [text.split(/\r?\n/)]: a separator is CR LF or a lone LF. *)
Fixpoint splitLines (s : jsstring) : list jsstring :=
  let cons_head c rest :=
    match rest with
    | h :: t => (c :: h) :: t
    | [] => [[c]]
    end in
  match s with
  | [] => [[]]
  | c :: s' =>
      if (code c =? 10)%N then [] :: splitLines s'
      else if (code c =? 13)%N then
        match s' with
        | d :: s'' =>
            if (code d =? 10)%N then [] :: splitLines s''
            else cons_head c (splitLines s')
        | [] => cons_head c (splitLines s')
        end
      else cons_head c (splitLines s')
  end.

(** [s.replace(/\\/g, '/')] *)
Definition backslashesToSlashes (s : jsstring) : jsstring :=
  map (fun c => if Ascii.eqb c "\" then "/" else c) s.

(** GetSubstitution for a string pattern (no captures): in the
    replacement template [$$] is a dollar, [$&] the matched text, [$`]
    the text before the match and [$'] the text after it; every other
    character, a lone [$] included, stands for itself. *)
Fixpoint getSubstitution (matched before after template : jsstring)
  : jsstring :=
  match template with
  | [] => []
  | c :: t =>
      if Ascii.eqb c "$" then
        match t with
        | d :: t' =>
            if Ascii.eqb d "$" then
              "$" :: getSubstitution matched before after t'
            else if Ascii.eqb d "&" then
              matched ++ getSubstitution matched before after t'
            else if Ascii.eqb d "`" then
              before ++ getSubstitution matched before after t'
            else if Ascii.eqb d "'" then
              after ++ getSubstitution matched before after t'
            else c :: getSubstitution matched before after t
        | [] => [c]
        end
      else c :: getSubstitution matched before after t
  end.

(** The scan of [s.replaceAll(p, r)]: [seen] is the text already passed
    (reversed), [skip] the number of characters of the current match
    still to pass.  Matches are taken leftmost first and do not overlap;
    the empty pattern matches before every character and at the end. *)
Fixpoint replaceAllFrom (p r seen : jsstring) (skip : nat) (s : jsstring)
  : jsstring :=
  match s with
  | [] =>
      match skip, p with
      | 0, [] => getSubstitution p (rev seen) [] r
      | _, _ => []
      end
  | c :: s' =>
      match skip with
      | S k => replaceAllFrom p r (c :: seen) k s'
      | 0 =>
          if startsWith s p then
            getSubstitution p (rev seen) (skipn (List.length p) s) r ++
            match p with
            | [] => c :: replaceAllFrom p r (c :: seen) 0 s'
            | _ :: p' => replaceAllFrom p r (c :: seen) (List.length p') s'
            end
          else c :: replaceAllFrom p r (c :: seen) 0 s'
      end
  end.

(** [s.replaceAll(p, r)] with a string pattern and a string replacement. *)
Definition replaceAll (s p r : jsstring) : jsstring :=
  replaceAllFrom p r [] 0 s.

(** A [Map<string, string>]: the entries in insertion order; [set] on a
    key already present keeps its place. *)
Definition JsMap := list (jsstring * jsstring).

Fixpoint mapSet (k v : jsstring) (m : JsMap) : JsMap :=
  match m with
  | [] => [(k, v)]
  | (k', v') :: m' =>
      if eqs k' k then (k, v) :: m' else (k', v') :: mapSet k v m'
  end.

Fixpoint mapGet (k : jsstring) (m : JsMap) : option jsstring :=
  match m with
  | [] => None
  | (k', v') :: m' => if eqs k' k then Some v' else mapGet k m'
  end.

(** Truthiness of a string. *)
Definition truthy (s : jsstring) : bool :=
  match s with
  | [] => false
  | _ => true
  end.

End JS.

(* ================================================================= *)
(** ** Path resolution: filesystem path to Roblox path *)

Module PathResolver.
Import JS.

(** [path.dirname] and [path.basename], POSIX flavour (the caller has
    turned backslashes into slashes). *)
Definition isSlash (c : ascii) : bool := Ascii.eqb c "/".

Definition dirname (path : jsstring) : jsstring :=
  match path with
  | [] => str "."
  | c0 :: body =>
      let hasRoot := isSlash c0 in
      (* path[1..end] reversed, where path[end] is the slash before the
         last component *)
      let upToEnd :=
        dropWhile (fun c => negb (isSlash c)) (dropWhile isSlash (rev body)) in
      match upToEnd with
      | [] => if hasRoot then str "/" else str "."
      | _ =>
          let endIndex := List.length upToEnd in
          if hasRoot && Nat.eqb endIndex 1 then str "//"
          else firstn endIndex path
      end
  end.

Definition basename (path : jsstring) : jsstring :=
  rev (takeWhile (fun c => negb (isSlash c)) (dropWhile isSlash (rev path))).

#[local] Set Warnings "-register-all".

(** A value of the parsed project.json: an object (its properties in
    [Object.entries] order, each key once; an array is an object with
    index keys), a string, or another primitive. *)
Inductive ProjectTreeNode : Type :=
| NodeObject (props : list (jsstring * ProjectTreeNode))
| NodeString (s : jsstring)
| NodePrimitive.

(** [tree.$path === targetPath] *)
Fixpoint dollarPathIs (props : list (jsstring * ProjectTreeNode))
  (targetPath : jsstring) : bool :=
  match props with
  | [] => false
  | (key, value) :: props' =>
      if eqs key (str "$path") then
        match value with
        | NodeString s => eqs s targetPath
        | _ => false
        end
      else dollarPathIs props' targetPath
  end.

Definition formatRobloxName (name : jsstring) : jsstring :=
  if includes name (str " ")
  then str "[" ++ [dquote] ++ name ++ [dquote] ++ str "]"
  else name.

Fixpoint findPathInTree (tree : ProjectTreeNode) (targetPath : jsstring)
  (currentPath : list jsstring) {struct tree} : option (list jsstring) :=
  match tree with
  | NodeObject props =>
      if dollarPathIs props targetPath then Some currentPath
      else
        (fix entries (ps : list (jsstring * ProjectTreeNode))
           : option (list jsstring) :=
           match ps with
           | [] => None
           | (key, value) :: ps' =>
               if startsWith key (str "$") then entries ps'
               else
                 match value with
                 | NodeObject _ =>
                     match findPathInTree value targetPath
                             (currentPath ++ [key]) with
                     | Some result => Some result
                     | None => entries ps'
                     end
                 | _ => entries ps'
                 end
           end) props
  | _ => None
  end.

(** The module name of a file: the base name without a [.lua]/[.luau]
    extension and without a [.server]/[.client]/[.shared] tag before it. *)
Definition moduleNameOf (filename : jsstring) : jsstring :=
  match lastIndexOf "." filename with
  | Some lastDotIndex =>
      let ext := toLowerCase (substringFrom (lastDotIndex + 1) filename) in
      if eqs ext (str "lua") || eqs ext (str "luau") then
        let moduleName := substringTo lastDotIndex filename in
        match lastIndexOf "." moduleName with
        | Some secondLastDotIndex =>
            let suffix :=
              toLowerCase (substringFrom (secondLastDotIndex + 1) moduleName) in
            if eqs suffix (str "server") || eqs suffix (str "client")
               || eqs suffix (str "shared")
            then substringTo secondLastDotIndex moduleName
            else moduleName
        | None => moduleName
        end
      else filename
  | None => filename
  end.

(** [part => part && part !== '.'] *)
Definition keepPart (part : jsstring) : bool :=
  truthy part && negb (eqs part (str ".")).

(** [result += formatted] or [result += `.${formatted}`] *)
Definition appendName (result name : jsstring) : jsstring :=
  let formatted := formatRobloxName name in
  if startsWith formatted (str "[") then result ++ formatted
  else result ++ str "." ++ formatted.

(** [result += `:GetService(Q${part}Q)`], Q the double quote. *)
Definition appendService (result part : jsstring) : jsstring :=
  result ++ str ":GetService(" ++ [dquote] ++ part ++ [dquote] ++ str ")".

(** The loops over the parts of a path: the first part names the
    service, the others are appended by name. *)
Definition appendParts (result : jsstring) (parts : list jsstring) : jsstring :=
  match parts with
  | [] => result
  | part :: rest => fold_left appendName rest (appendService result part)
  end.

(** The search [for (let i = dirParts.length; i >= 0; i--)]: the longest
    prefix of the directory some node's [$path] equals. *)
Fixpoint searchTree (tree : ProjectTreeNode) (dirParts : list jsstring)
  (i : nat) : option (list jsstring * list jsstring) :=
  match findPathInTree tree (join (str "/") (firstn i dirParts)) [] with
  | Some treePath => Some (treePath, skipn i dirParts)
  | None =>
      match i with
      | 0 => None
      | S i' => searchTree tree dirParts i'
      end
  end.

Definition isInit (moduleName : jsstring) : bool :=
  startsWith (toLowerCase moduleName) (str "init").

(** The fallback conversion (no project.json, or no match in its tree). *)
Definition convertFallback (dir moduleName : jsstring) : jsstring :=
  let dirParts := filter keepPart (split "/" dir) in
  let dirParts :=
    match dirParts with
    | first :: rest => if eqs first (str "src") then rest else dirParts
    | [] => dirParts
    end in
  let result := appendParts (str "game") dirParts in
  if isInit moduleName then result
  else appendName result moduleName.

(** [convertToRobloxPath(filePath, workspaceFolder)].  [tree] is what
    reading the workspace yields: [Some] of the [tree] property when a
    workspace folder is given, a project.json is found and parsed and
    its [tree] is truthy, [None] otherwise. *)
Definition convertToRobloxPath (filePath : jsstring)
  (tree : option ProjectTreeNode) : jsstring :=
  let dir := dirname filePath in
  let filename := basename filePath in
  let moduleName := moduleNameOf filename in
  let viaTree :=
    match tree with
    | Some projectTree =>
        let dirParts :=
          filter keepPart (split "/" (backslashesToSlashes dir)) in
        match searchTree projectTree dirParts (List.length dirParts) with
        | Some (part :: treeRest, remainingPathParts) =>
            let result :=
              fold_left appendName remainingPathParts
                (appendParts (str "game") (part :: treeRest)) in
            Some (if negb (isInit moduleName)
                  then appendName result moduleName
                  else result)
        | _ => None
        end
    | None => None
    end in
  match viaTree with
  | Some result => result
  | None => convertFallback dir moduleName
  end.

End PathResolver.

(* ================================================================= *)
(** ** Reference rewriting *)

Module Refactor.
Import JS.

Record FileMovement : Type := {
  oldPath : jsstring;
  newPath : jsstring
}.

Record LongestVariable : Type := {
  variable : jsstring;
  longestSnippetCount : nat;
  suffix : jsstring
}.

(** The text before and after the service name in a service access
    (the double quote is written Q in the comments below). *)
Definition getServiceOpen : jsstring := str "game:GetService(" ++ [dquote].
Definition getServiceClose : jsstring := [dquote] ++ str ")".

(** [`game:GetService(Q${name}Q)`] *)
Definition getService (name : jsstring) : jsstring :=
  getServiceOpen ++ name ++ getServiceClose.

(** [path.match(serviceRegex)], the pattern being
    [^game:GetService\(Q([^Q]+)Q\)] and then the group [.*] up to [$]:
    the two groups.
    The name runs to the first double quote and is not empty; the rest
    runs to the end of the string and holds no line terminator. *)
Definition serviceRegex (path : jsstring) : option (jsstring * jsstring) :=
  match stripPrefix getServiceOpen path with
  | None => None
  | Some afterOpen =>
      let name := takeWhile (fun c => negb (Ascii.eqb c dquote)) afterOpen in
      let afterName := dropWhile (fun c => negb (Ascii.eqb c dquote)) afterOpen in
      match name with
      | [] => None
      | _ =>
          match stripPrefix getServiceClose afterName with
          | None => None
          | Some rest =>
              if forallb (fun c => negb (isLineTerminator c)) rest
              then Some (name, rest)
              else None
          end
      end
  end.

(** The part [\s+] identifier [\s*=] of the two declaration patterns at
    the head of [s], the identifier being [[a-zA-Z_]\w*]: the identifier
    and what follows the equals sign. *)
Definition identifierAssigned (s : jsstring) : option (jsstring * jsstring) :=
  match s with
  | c :: _ =>
      if isSpace c then
        match dropWhile isSpace s with
        | i :: afterStart =>
            if isIdentStart i then
              let name := i :: takeWhile isWord afterStart in
              match dropWhile isSpace (dropWhile isWord afterStart) with
              | e :: afterEquals =>
                  if Ascii.eqb e "=" then Some (name, afterEquals) else None
              | [] => None
              end
            else None
        | [] => None
        end
      else None
  | [] => None
  end.

(** One attempt of the pattern [local], [\s+], identifier (group 1),
    [\s*=\s*], [game:GetService\(QNAMEQ\)] at the head of [s], for a
    [serviceName] that is [regexPlain]: group 1. *)
Definition serviceDeclarationAt (serviceName s : jsstring) : option jsstring :=
  match stripPrefix (str "local") s with
  | None => None
  | Some afterLocal =>
      match identifierAssigned afterLocal with
      | None => None
      | Some (name, afterEquals) =>
          if startsWith (dropWhile isSpace afterEquals) (getService serviceName)
          then Some name
          else None
      end
  end.

(** [regex.exec(text)] for that pattern: the attempt at the leftmost
    position that succeeds. *)
Fixpoint execServiceDeclaration (serviceName text : jsstring)
  : option jsstring :=
  match serviceDeclarationAt serviceName text with
  | Some name => Some name
  | None =>
      match text with
      | [] => None
      | _ :: text' => execServiceDeclaration serviceName text'
      end
  end.

(** [\s*(.+)] at the head of [s]: group 2 of [assignRegex].  The
    whitespace is taken greedily; when nothing but a line terminator or
    the end follows it, the matcher gives whitespace back until [.+] has
    one character to take, which is then the last character of the
    whitespace run that is not a line terminator. *)
Definition assignedValue (s : jsstring) : option jsstring :=
  let notTerminator c := negb (isLineTerminator c) in
  match takeWhile notTerminator (dropWhile isSpace s) with
  | c :: value => Some (c :: value)
  | [] =>
      match dropWhile isLineTerminator (rev (takeWhile isSpace s)) with
      | c :: _ => Some [c]
      | [] => None
      end
  end.

(** [line.match(assignRegex)], the pattern being [^\s*local], [\s+],
    identifier (group 1), [\s*=\s*] and the group [.+]: groups 1, 2. *)
Definition assignRegex (line : jsstring) : option (jsstring * jsstring) :=
  match stripPrefix (str "local") (dropWhile isSpace line) with
  | None => None
  | Some afterLocal =>
      match identifierAssigned afterLocal with
      | None => None
      | Some (varName, afterEquals) =>
          match assignedValue afterEquals with
          | Some rawValue => Some (varName, rawValue)
          | None => None
          end
      end
  end.

(** The clean-up of the assigned expression: a trailing comment and a
    trailing semicolon are removed. *)
Definition cleanup (rawValue : jsstring) : jsstring :=
  let rawValue :=
    if includes rawValue (str "--") then splitHead (str "--") rawValue
    else rawValue in
  let rawValue := trim rawValue in
  if endsWith rawValue (str ";") then trim (dropLast rawValue) else rawValue.

(** The body of the loop over the lines. *)
Definition parseLine (globalVarMap : JsMap) (line : jsstring) : JsMap :=
  match assignRegex line with
  | None => globalVarMap
  | Some (varName, rawValue) =>
      let rawValue := cleanup rawValue in
      match serviceRegex rawValue with
      | Some _ => mapSet varName rawValue globalVarMap
      | None =>
          let parts := split "." rawValue in
          let potentialBaseVar := hd [] parts in
          match mapGet potentialBaseVar globalVarMap with
          | Some absoluteBasePath =>
              let restOfPath := join (str ".") (tl parts) in
              let finalAbsolutePath :=
                if truthy restOfPath
                then absoluteBasePath ++ str "." ++ restOfPath
                else absoluteBasePath in
              mapSet varName finalAbsolutePath globalVarMap
          | None => globalVarMap
          end
      end
  end.

Definition parseVariablesToAbsoluteMap (text : jsstring) : JsMap :=
  fold_left parseLine (splitLines text) [].

(** The two counting loops of the nested pass: the number of leading
    segments of [pathSnippet] the variable's segments repeat, and the
    value of the shared [suffix] variable afterwards: the unmatched
    segments joined when the loop breaks, [suffix] as it was when the
    loop runs to its end. *)
Fixpoint countSnippets (variablePathSnippet pathSnippet : list jsstring)
  (localBiggest : nat) (suffix : jsstring) {struct pathSnippet}
  : nat * jsstring :=
  match pathSnippet with
  | [] => (localBiggest, suffix)
  | segment :: pathSnippet' =>
      match variablePathSnippet with
      | own :: variablePathSnippet' =>
          if eqs own segment
          then countSnippets variablePathSnippet' pathSnippet'
                 (S localBiggest) suffix
          else (localBiggest, join (str ".") pathSnippet)
      | [] => (localBiggest, join (str ".") pathSnippet)
      end
  end.

(** The body of [variableMap.forEach]: the state is [biggestVariable] and
    [oldPaths]. *)
Definition visitVariable (newPathSnippet oldPathSnippet : list jsstring)
  (state : LongestVariable * list LongestVariable)
  (entry : jsstring * jsstring) : LongestVariable * list LongestVariable :=
  let '(biggestVariable, oldPaths) := state in
  let '(variable, relativePath) := entry in
  let variablePathSnippet := split "." relativePath in
  let '(localBiggest, suffix) :=
    countSnippets variablePathSnippet newPathSnippet 0 [] in
  let biggestVariable :=
    if Nat.ltb (longestSnippetCount biggestVariable) localBiggest
    then {| variable := variable;
            longestSnippetCount := localBiggest;
            suffix := suffix |}
    else biggestVariable in
  let '(localBiggest, suffix) :=
    countSnippets variablePathSnippet oldPathSnippet 0 suffix in
  (biggestVariable,
   oldPaths ++ [{| variable := variable;
                   longestSnippetCount := localBiggest;
                   suffix := suffix |}]).

(** [oldPaths.sort((a, b) => b.longestSnippetCount - a.longestSnippetCount)]:
    greater counts first; the sort is stable, so an element goes before
    the elements of the same count that follow it in the array. *)
Fixpoint insertByCount (x : LongestVariable) (sorted : list LongestVariable)
  : list LongestVariable :=
  match sorted with
  | [] => [x]
  | y :: sorted' =>
      if Nat.ltb (longestSnippetCount x) (longestSnippetCount y)
      then y :: insertByCount x sorted'
      else x :: sorted
  end.

Definition sortByCount (l : list LongestVariable) : list LongestVariable :=
  fold_right insertByCount [] l.

(** The variable, a dot unless the variable or the suffix is empty, and
    the suffix. *)
Definition literalForm (v : LongestVariable) : jsstring :=
  variable v
  ++ (if eqs (variable v) [] || eqs (suffix v) [] then [] else str ".")
  ++ suffix v.

(** The body of [oldPaths.forEach]. *)
Definition replaceCandidate (calculatedNewPath : jsstring) (text : jsstring)
  (candidate : LongestVariable) : jsstring :=
  let path := literalForm candidate in
  if includes text path then replaceAll text path calculatedNewPath else text.

(** The first [variableMap.forEach] as a whole: [biggestVariable] and
    [oldPaths] when it ends. *)
Definition visitVariables (variableMap : JsMap) (oldPath newPath : jsstring)
  : LongestVariable * list LongestVariable :=
  fold_left (visitVariable (split "." newPath) (split "." oldPath)) variableMap
    ({| variable := []; longestSnippetCount := 0; suffix := newPath |}, []).

Definition applyNestedRefactoring (text oldPath newPath : jsstring) : jsstring :=
  let variableMap := parseVariablesToAbsoluteMap text in
  match variableMap with
  | [] => text
  | _ =>
      let '(biggestVariable, oldPaths) :=
        visitVariables variableMap oldPath newPath in
      let oldPaths := sortByCount oldPaths in
      let calculatedNewPath := literalForm biggestVariable in
      fold_left (replaceCandidate calculatedNewPath) oldPaths text
  end.

(** [a == b] on two values that are a string or [null]. *)
Definition looseEq (a b : option jsstring) : bool :=
  match a, b with
  | Some x, Some y => eqs x y
  | None, None => true
  | _, _ => false
  end.

(** Truthiness of a value that is a string or [null]. *)
Definition truthyOpt (a : option jsstring) : bool :=
  match a with
  | Some x => truthy x
  | None => false
  end.

(** The text of a value known not to be [null]. *)
Definition orEmpty (a : option jsstring) : jsstring :=
  match a with
  | Some x => x
  | None => []
  end.

(** The primary pass of [applyRefactorOnText], once both paths have
    matched [serviceRegex] and the two declarations have been looked up:
    the value of [newText] before the nested pass. *)
Definition rewriteReference (text oldPath : jsstring)
  (oldPathSuffix newServiceName newPathSuffix : jsstring)
  (oldServiceVariable newServiceVariable : option jsstring) : jsstring :=
  let inlineService := getService newServiceName ++ newPathSuffix in
  match oldServiceVariable with
  | Some oldVariable =>
      if includes text (oldVariable ++ oldPathSuffix) then
        let oldGivenPath := oldVariable ++ oldPathSuffix in
        if looseEq oldServiceVariable newServiceVariable then
          replaceAll text oldGivenPath (oldVariable ++ newPathSuffix)
        else if truthyOpt newServiceVariable then
          replaceAll text oldGivenPath
            (orEmpty newServiceVariable ++ newPathSuffix)
        else replaceAll text oldGivenPath inlineService
      else if includes text oldPath then
        if looseEq oldServiceVariable newServiceVariable then
          replaceAll text oldPath (oldVariable ++ newPathSuffix)
        else if truthyOpt newServiceVariable then
          replaceAll text oldPath (orEmpty newServiceVariable ++ newPathSuffix)
        else replaceAll text oldPath inlineService
      else text
  | None =>
      if includes text oldPath then
        if truthyOpt newServiceVariable then
          replaceAll text oldPath (orEmpty newServiceVariable ++ newPathSuffix)
        else replaceAll text oldPath inlineService
      else text
  end.

(** [applyRefactorOnText(text, oldPath, newPath)].  The two declaration
    patterns are built by splicing the service names into a pattern
    unescaped; the result is [None] when a name holds a syntax character
    of regular expressions, which is outside what is modelled here. *)
Definition applyRefactorOnText (text oldPath newPath : jsstring)
  : option jsstring :=
  match serviceRegex oldPath, serviceRegex newPath with
  | Some (oldServiceName, oldPathSuffix), Some (newServiceName, newPathSuffix) =>
      if regexPlain oldServiceName && regexPlain newServiceName then
        let oldServiceVariable := execServiceDeclaration oldServiceName text in
        let newServiceVariable := execServiceDeclaration newServiceName text in
        let newText :=
          rewriteReference text oldPath oldPathSuffix newServiceName
            newPathSuffix oldServiceVariable newServiceVariable in
        Some (applyNestedRefactoring newText oldPath newPath)
      else None
  | _, _ => Some text
  end.

(** The loop over the moves of [performBatchRefactoring], for one file:
    the state is [currentText] and [isFileDirty]. *)
Fixpoint applyMoves (moves : list FileMovement) (currentText : jsstring)
  (isFileDirty : bool) : option (jsstring * bool) :=
  match moves with
  | [] => Some (currentText, isFileDirty)
  | move :: moves' =>
      match applyRefactorOnText currentText (oldPath move) (newPath move) with
      | None => None
      | Some resultText =>
          if negb (eqs resultText currentText)
          then applyMoves moves' resultText true
          else applyMoves moves' currentText isFileDirty
      end
  end.

End Refactor.

(* ================================================================= *)
(** ** The ignore list *)

Module IgnoreManager.
Import JS.

(** The interface of the ignore library the extension calls: a fresh
    instance, [add] with an array of patterns, [add] with the text of an
    ignore file, and the test [ignores]. *)
Class IgnoreLibrary : Type := {
  Ignore : Type;
  ignoreDefault : Ignore;
  addPatterns : list jsstring -> Ignore -> Ignore;
  addText : jsstring -> Ignore -> Ignore;
  ignores : Ignore -> jsstring -> bool
}.

(** The outcome of a call that may throw (of a promise that may reject). *)
Inductive Completion (A : Type) : Type :=
| Normal (value : A)
| Thrown.
Arguments Normal {A} value.
Arguments Thrown {A}.

Definition tryCatch {A : Type} (body handler : Completion A) : Completion A :=
  match body with
  | Normal value => Normal value
  | Thrown => handler
  end.

Definition IGNORE_NAME : jsstring := str ".repathignore".

(** [getIgnore(workspaceFolder)].  [readFile folder name] is the decoded
    content of the file [name] of the folder, [Thrown] when there is no
    such file or it cannot be read. *)
Definition getIgnore `{IgnoreLibrary} (workspaceFolder : option jsstring)
  (readFile : jsstring -> jsstring -> Completion jsstring)
  : Completion Ignore :=
  let ig := addPatterns [str ".git"; str "node_modules"] ignoreDefault in
  (* the two [ig.add] calls and the [try] block *)
  match workspaceFolder with
  | Some folder =>
      tryCatch
        match readFile folder IGNORE_NAME with
        | Normal text => Normal (addText text ig)
        | Thrown => Thrown
        end
        (Normal ig)
  | None => Normal ig
  end.

(** The instance holding the two built-in patterns only. *)
Definition defaultIgnore `{IgnoreLibrary} : Ignore :=
  addPatterns [str ".git"; str "node_modules"] ignoreDefault.

(** A small instance of the interface, for examples: a pattern is a
    plain name, and a path is ignored when one of its components is one
    of the patterns. *)
Definition namesIgnore : IgnoreLibrary := {|
  Ignore := list jsstring;
  ignoreDefault := [];
  addPatterns := fun patterns ig => ig ++ patterns;
  addText := fun text ig => ig ++ splitLines text;
  ignores := fun ig path =>
    existsb (fun part => existsb (eqs part) ig) (split "/" path)
|}.

End IgnoreManager.

(* ================================================================= *)
(** ** The vocabulary of the specification *)

Module Spec.
Import JS PathResolver Refactor.

(** The number of leading segments two segment sequences share. *)
Fixpoint commonPrefixLength (a b : list jsstring) : nat :=
  match a, b with
  | x :: a', y :: b' => if eqs x y then S (commonPrefixLength a' b') else 0
  | _, _ => 0
  end.

(** A name whose first four letters are i, n, i, t in any letter case. *)
Definition beginsWithInit (name : jsstring) : Prop :=
  exists c1 c2 c3 c4 rest,
    name = c1 :: c2 :: c3 :: c4 :: rest
    /\ (c1 = "i" \/ c1 = "I") /\ (c2 = "n" \/ c2 = "N")
    /\ (c3 = "i" \/ c3 = "I") /\ (c4 = "t" \/ c4 = "T").

(** The directory parts of the fallback conversion. *)
Definition fallbackParts (dir : jsstring) : list jsstring :=
  match filter keepPart (split "/" dir) with
  | first :: rest =>
      if eqs first (str "src") then rest else first :: rest
  | [] => []
  end.

(** The parts the containing directory of a file resolves to: the
    matched tree path and the directories below it, or the fallback
    parts. *)
Definition resolvedParts (filePath : jsstring) (tree : option ProjectTreeNode)
  : list jsstring :=
  let dir := dirname filePath in
  match tree with
  | Some projectTree =>
      let dirParts := filter keepPart (split "/" (backslashesToSlashes dir)) in
      match searchTree projectTree dirParts (List.length dirParts) with
      | Some (part :: treeRest, remainingPathParts) =>
          part :: treeRest ++ remainingPathParts
      | _ => fallbackParts dir
      end
  | None => fallbackParts dir
  end.

(** The Roblox path of the containing directory of a file. *)
Definition directoryRobloxPath (filePath : jsstring)
  (tree : option ProjectTreeNode) : jsstring :=
  appendParts (str "game") (resolvedParts filePath tree).

(** The replacement policy of the primary pass, in the words of the
    specification: the old alias when it is also the alias of the new
    anchor, the alias of the new anchor when there is a distinct one,
    the service access written out when the new anchor has no alias. *)
Definition replacementFor (aliasOld aliasNew : option jsstring)
  (newServiceName newPathSuffix : jsstring) : jsstring :=
  match aliasNew with
  | None => getService newServiceName ++ newPathSuffix
  | Some aliasN =>
      match aliasOld with
      | Some aliasO =>
          if eqs aliasO aliasN then aliasO ++ newPathSuffix
          else aliasN ++ newPathSuffix
      | None => aliasN ++ newPathSuffix
      end
  end.

(** [found] is the alias of the textually first declaration of the
    service in [text]: a declaration starts at some position and none
    starts before it; [None] when no declaration starts anywhere. *)
Definition FirstDeclaration (serviceName text : jsstring)
  (found : option jsstring) : Prop :=
  match found with
  | Some alias =>
      exists i,
        serviceDeclarationAt serviceName (skipn i text) = Some alias
        /\ forall j, j < i ->
             serviceDeclarationAt serviceName (skipn j text) = None
  | None =>
      forall j, serviceDeclarationAt serviceName (skipn j text) = None
  end.

(** A string that matches the anchor-access grammar. *)
Definition matchesGrammar (path : jsstring) : Prop :=
  exists name rest, serviceRegex path = Some (name, rest).


(** The literal forms of the old path a pass over [text] looks for are
    all absent: the old path itself, the old suffix behind the alias of
    the old anchor, and the candidates of the nested pass. *)
Definition oldFormsAbsent (text oldPath newPath : jsstring) : bool :=
  negb (includes text oldPath)
  && match serviceRegex oldPath with
     | Some (oldServiceName, oldPathSuffix) =>
         match execServiceDeclaration oldServiceName text with
         | Some alias => negb (includes text (alias ++ oldPathSuffix))
         | None => true
         end
     | None => true
     end
  && forallb (fun candidate => negb (includes text (literalForm candidate)))
       (snd (visitVariables (parseVariablesToAbsoluteMap text) oldPath newPath)).

(** The literal substitution of every occurrence of [p] in a text, the
    occurrences taken leftmost first and not overlapping. *)
Inductive Substituted (p r : jsstring) : jsstring -> jsstring -> Prop :=
| substituted_none s :
    includes s p = false ->
    Substituted p r s s
| substituted_first before after out :
    includes (before ++ removelast p) p = false ->
    Substituted p r after out ->
    Substituted p r (before ++ p ++ after) (before ++ r ++ out).

(** The segments of a path left unmatched after the first [count],
    joined by dots. *)
Definition unmatched (segments : list jsstring) (count : nat) : jsstring :=
  join (str ".") (skipn count segments).

(** The candidate the nested pass records for an alias of the index:
    its count is the number of leading segments its path shares with
    the old path; its suffix is the unmatched rest of the old path, and,
    when the path of the alias covers the whole old path, the unmatched
    rest of the new path (the variable that holds the suffix is not
    reset between the two loops). *)
Definition candidateFor (oldPath newPath : jsstring)
  (entry : jsstring * jsstring) : LongestVariable :=
  let own := split "." (snd entry) in
  let oldSegments := split "." oldPath in
  let newSegments := split "." newPath in
  let oldCount := commonPrefixLength own oldSegments in
  {| variable := fst entry;
     longestSnippetCount := oldCount;
     suffix :=
       if Nat.ltb oldCount (List.length oldSegments)
       then unmatched oldSegments oldCount
       else unmatched newSegments (commonPrefixLength own newSegments) |}.

(** The best alias for the new path: no alias of the index shares more
    leading segments with the new path; with no shared segment at all
    the literal is the new path itself, and otherwise it is an alias of
    the index with the unmatched rest of the new path. *)
Definition isBest (newPath : jsstring) (index : JsMap)
  (best : LongestVariable) : Prop :=
  Forall (fun entry =>
            commonPrefixLength (split "." (snd entry)) (split "." newPath)
            <= longestSnippetCount best) index
  /\ (longestSnippetCount best = 0 -> literalForm best = newPath)
  /\ (0 < longestSnippetCount best ->
      exists entry,
        In entry index
        /\ variable best = fst entry
        /\ longestSnippetCount best
           = commonPrefixLength (split "." (snd entry)) (split "." newPath)
        /\ suffix best
           = unmatched (split "." newPath) (longestSnippetCount best)).

(** The order of the sort: greater counts first. *)
Definition countsDescend (a b : LongestVariable) : Prop :=
  longestSnippetCount b <= longestSnippetCount a.

(** A name: a string without a slash. *)
Definition noSlash (s : jsstring) : bool :=
  forallb (fun c => negb (isSlash c)) s.

(** Strings without a line terminator, and without a double quote. *)
Definition noLineTerminator (s : jsstring) : bool :=
  forallb (fun c => negb (isLineTerminator c)) s.

Definition noQuote (s : jsstring) : bool :=
  forallb (fun c => negb (Ascii.eqb c dquote)) s.

(** The local variables the text binds to the service itself, in the
    order of their lines: the names of the lines local NAME = EXPR
    whose expression, its trailing comment and semicolon removed, is the
    access to the service and nothing after it. *)
Definition anchorAliases (serviceName text : jsstring) : list jsstring :=
  flat_map
    (fun line =>
       match assignRegex line with
       | Some (name, rawValue) =>
           if eqs (cleanup rawValue) (getService serviceName)
           then [name] else []
       | None => []
       end)
    (splitLines text).

End Spec.

(* ================================================================= *)
(** ** Example files and moves *)

Module Examples.
Import JS Refactor.

Definition lf : jsstring := ["010"].

Definition serviceS : jsstring := getService (str "S").
Definition serviceT : jsstring := getService (str "T").

(** Two declarations of one service, and a reference through each. *)
Definition twoDeclarations : jsstring :=
  str "local A = " ++ serviceS ++ lf
  ++ str "local B = " ++ serviceS ++ lf
  ++ str "require(A.Old) require(B.Old)".

(** A reference through an alias of the service. *)
Definition aliasReference : jsstring :=
  str "local SSS = " ++ serviceS ++ lf
  ++ str "local m = require(SSS.OldModule)" ++ lf.

(** A reference written out in full, in a file without declarations. *)
Definition directReference : jsstring :=
  str "local m = require(" ++ serviceS ++ str ".A)".

(** A reference through an alias of a folder below the service. *)
Definition nestedReference : jsstring :=
  str "local SSS = " ++ serviceS ++ lf
  ++ str "local Sub = SSS.sub.path" ++ lf
  ++ str "local m = require(Sub.more.Old)" ++ lf.

(** A variable bound to a child of the service, then two variables
    bound to the service itself, and a reference written out in full. *)
Definition childBindingFirst : jsstring :=
  str "local Remotes = " ++ serviceS ++ str ".Remotes" ++ lf
  ++ str "local RS = " ++ serviceS ++ lf
  ++ str "local RS2 = " ++ serviceS ++ lf
  ++ str "local m = require(" ++ serviceS ++ str ".OldModule)" ++ lf.

End Examples.

(* ================================================================= *)
(** ** The rename handler and the loop over the files *)

Module Extension.
Import JS PathResolver Refactor IgnoreManager.

(** One renamed file of the event: its old and its new path, relative
    to the workspace folder. *)
Record Rename : Type := {
  relativePathOld : jsstring;
  relativePathNew : jsstring
}.

(** The loop of the rename handler that saves the moves: a rename is
    kept when both Roblox paths are truthy and differ.  [tree] is what
    reading the workspace yields, the same for every call. *)
Definition collectMove (tree : option ProjectTreeNode)
  (moves : list FileMovement) (file : Rename) : list FileMovement :=
  let normalizedOld := backslashesToSlashes (relativePathOld file) in
  let normalizedNew := backslashesToSlashes (relativePathNew file) in
  let oldRobloxPath := convertToRobloxPath normalizedOld tree in
  let newRobloxPath := convertToRobloxPath normalizedNew tree in
  if truthy oldRobloxPath && truthy newRobloxPath
     && negb (eqs oldRobloxPath newRobloxPath)
  then moves ++ [{| oldPath := oldRobloxPath; newPath := newRobloxPath |}]
  else moves.

Definition collectMoves (tree : option ProjectTreeNode)
  (files : list Rename) : list FileMovement :=
  fold_left (collectMove tree) files [].

(** A file that [findFiles] returns: its path relative to the workspace,
    with POSIX separators, and what opening its document gives: its
    text, or [Thrown] when the document cannot be opened. *)
Record SourceFile : Type := {
  relativePathPosix : jsstring;
  openTextDocument : Completion jsstring
}.

(** [performBatchRefactoring]: the loop over the files.  [ignores] is
    the test of the ignore list, which throws on a path it does not
    take for a relative one (a path that leaves the workspace folder);
    the workspace edit is the list of the [edit.replace] calls, each the
    file and its whole new text.  Neither the test nor the opening of
    the document is inside a try: when one of them throws the function
    is rejected there, [Thrown], and the workspace edit, which is the
    caller's, holds the edits staged up to then. *)
Fixpoint performBatchRefactoring (moves : list FileMovement)
  (ignores : jsstring -> Completion bool) (files : list SourceFile)
  (edit : list (jsstring * jsstring)) (fileCount : nat)
  : option (list (jsstring * jsstring) * Completion nat) :=
  match files with
  | [] => Some (edit, Normal fileCount)
  | file :: files' =>
      match ignores (relativePathPosix file) with
      | Thrown => Some (edit, Thrown)
      | Normal true =>
          performBatchRefactoring moves ignores files' edit fileCount
      | Normal false =>
          match openTextDocument file with
          | Thrown => Some (edit, Thrown)
          | Normal originalText =>
              match applyMoves moves originalText false with
              | None => None
              | Some (currentText, isFileDirty) =>
                  if isFileDirty
                  then performBatchRefactoring moves ignores files'
                         (edit ++ [(relativePathPosix file, currentText)])
                         (S fileCount)
                  else performBatchRefactoring moves ignores files'
                         edit fileCount
              end
          end
      end
  end.

End Extension.

(* ================================================================= *)
(** ** Reading the project file *)

Module ProjectFile.
Import JS PathResolver IgnoreManager.

(** What [getProjectJson] reads: the listing of the workspace root
    ([Thrown] when the directory cannot be read) and, for a file name,
    the [tree] property of its parsed content: [Thrown] when the file
    cannot be read or parsed, [Normal None] when the parsed object has
    no truthy [tree]. *)
Record Workspace : Type := {
  readdir : Completion (list jsstring);
  readTree : jsstring -> Completion (option ProjectTreeNode)
}.

(** [getProjectJson(workspaceFolder)], as the [tree] of its result;
    [None] is [null]. *)
Definition getProjectJson (workspaceFolder : Workspace)
  : option ProjectTreeNode :=
  match readdir workspaceFolder with
  | Thrown => None
  | Normal files =>
      match find (fun file => endsWith file (str ".project.json")) files with
      | Some projectJsonFile =>
          match readTree workspaceFolder projectJsonFile with
          | Normal (Some tree) => Some tree
          | Normal None => None
          | Thrown => None
          end
      | None => None
      end
  end.

(** The tree [convertToRobloxPath] works with, for an optional
    workspace folder. *)
Definition projectTree (workspaceFolder : option Workspace)
  : option ProjectTreeNode :=
  match workspaceFolder with
  | Some folder => getProjectJson folder
  | None => None
  end.

(** [findPathInTree]'s loop over the entries of an object, as a function
    of its own. *)
Fixpoint findEntries (targetPath : jsstring) (currentPath : list jsstring)
  (entries : list (jsstring * ProjectTreeNode)) : option (list jsstring) :=
  match entries with
  | [] => None
  | (key, value) :: entries' =>
      if startsWith key (str "$") then findEntries targetPath currentPath entries'
      else
        match value with
        | NodeObject _ =>
            match findPathInTree value targetPath (currentPath ++ [key]) with
            | Some result => Some result
            | None => findEntries targetPath currentPath entries'
            end
        | _ => findEntries targetPath currentPath entries'
        end
  end.

End ProjectFile.

(* ================================================================= *)
(** ** The first rewriter *)

Module Legacy.
Import JS IgnoreManager.

(** [oldPath.replace(/[.*+?^${}()|[\]\\]/g, '\\$&')]: a backslash before
    every syntax character. *)
Definition escapeRegExp (oldPath : jsstring) : jsstring :=
  flat_map (fun c => if isSyntaxCharacter c then ["\"; c] else [c]) oldPath.

(** [/[a-zA-Z0-9_]/.test(text.charAt(i))]; [charAt] past the end is the
    empty string. *)
Definition wordCharAt (i : nat) (text : jsstring) : bool :=
  match nth_error text i with
  | Some c => isWord c
  | None => false
  end.

(** The loop [while ((match = regex.exec(text)) !== null)] over one
    text, the pattern being the escaped [oldPath] with the flag g, so
    that it matches [oldPath] itself, leftmost first and from the end of
    the match before: the offsets of the matches handed to
    [edit.replace].  [index] is the offset of [s] in the text and [skip]
    the number of characters of the current match still to pass. *)
Fixpoint replacedMatches (oldPath : jsstring) (index skip : nat)
  (s : jsstring) : list nat :=
  match s with
  | [] => []
  | c :: s' =>
      match skip with
      | S k => replacedMatches oldPath (S index) k s'
      | 0 =>
          if startsWith s oldPath then
            let rest :=
              replacedMatches oldPath (S index) (List.length oldPath - 1) s' in
            if wordCharAt (List.length oldPath) s then rest
            else index :: rest
          else replacedMatches oldPath (S index) 0 s'
      end
  end.

(** The edits of one file; [None] when [oldPath] is empty: the empty
    pattern matches at offset 0 for ever and the loop does not end. *)
Definition fileEdits (oldPath text : jsstring) : option (list nat) :=
  match oldPath with
  | [] => None
  | _ => Some (replacedMatches oldPath 0 0 text)
  end.

(** [performRefactoring(oldPath, newPath, edit)] over the files: a file
    whose document cannot be opened is passed over ([catch]).  The
    result is the edits, each a file and the offset of a match that is
    replaced with [newPath], and the count. *)
Fixpoint performRefactoring (oldPath : jsstring)
  (files : list (jsstring * Completion jsstring))
  (edit : list (jsstring * nat)) (count : nat)
  : option (list (jsstring * nat) * nat) :=
  match files with
  | [] => Some (edit, count)
  | (fileUri, Thrown) :: files' => performRefactoring oldPath files' edit count
  | (fileUri, Normal text) :: files' =>
      match fileEdits oldPath text with
      | None => None
      | Some offsets =>
          performRefactoring oldPath files'
            (edit ++ map (fun offset => (fileUri, offset)) offsets)
            (count + List.length offsets)
      end
  end.

End Legacy.

(* ================================================================= *)
(** ** More vocabulary *)

Module SpecExtra.
Import JS PathResolver Refactor IgnoreManager Extension.

(** [node] is the node the keys lead to from [tree], through entries
    whose key does not start with a dollar sign. *)
Inductive Reaches : ProjectTreeNode -> list jsstring -> ProjectTreeNode -> Prop :=
| reaches_here tree : Reaches tree [] tree
| reaches_child props key value keys node :
    In (key, value) props ->
    startsWith key (str "$") = false ->
    Reaches value keys node ->
    Reaches (NodeObject props) (key :: keys) node.

(** The node is an object whose [$path] is the string [targetPath]. *)
Definition declaresPath (node : ProjectTreeNode) (targetPath : jsstring)
  : Prop :=
  exists props, node = NodeObject props /\ dollarPathIs props targetPath = true.

(** The number of nodes of a tree. *)
Fixpoint treeSize (tree : ProjectTreeNode) : nat :=
  match tree with
  | NodeObject props =>
      S ((fix sizes (ps : list (jsstring * ProjectTreeNode)) : nat :=
            match ps with
            | [] => 0
            | (_, value) :: ps' => treeSize value + sizes ps'
            end) props)
  | _ => 1
  end.

(** An extension that names a Lua source, and a tag that names where a
    script runs, in any letter case. *)
Definition isLuaExtension (ext : jsstring) : bool :=
  eqs (toLowerCase ext) (str "lua") || eqs (toLowerCase ext) (str "luau").

Definition isScriptTag (tag : jsstring) : bool :=
  eqs (toLowerCase tag) (str "server") || eqs (toLowerCase tag) (str "client")
  || eqs (toLowerCase tag) (str "shared").

(** A string without a dot; a file name: no slash and no backslash. *)
Definition noDot (s : jsstring) : bool :=
  forallb (fun c => negb (Ascii.eqb c ".")) s.

Definition isFileName (s : jsstring) : bool :=
  forallb (fun c => negb (Ascii.eqb c "/") && negb (Ascii.eqb c "\")) s.

(** An identifier: a letter or an underscore, then word characters. *)
Definition isIdentifier (s : jsstring) : bool :=
  match s with
  | c :: rest => isIdentStart c && forallb isWord rest
  | [] => false
  end.

(** The edits a run of files calls for, file by file in their order:
    none for a file that the ignore list excludes, none for a file whose
    text the moves leave as it is, and one for a file whose text they
    change, holding its path and the text the moves end with. *)
Inductive Staged (moves : list FileMovement)
  (ignores : jsstring -> Completion bool)
  : list SourceFile -> list (jsstring * jsstring) -> Prop :=
| staged_none : Staged moves ignores [] []
| staged_ignored file files edits :
    ignores (relativePathPosix file) = Normal true ->
    Staged moves ignores files edits ->
    Staged moves ignores (file :: files) edits
| staged_unchanged file files edits originalText currentText :
    ignores (relativePathPosix file) = Normal false ->
    openTextDocument file = Normal originalText ->
    applyMoves moves originalText false = Some (currentText, false) ->
    Staged moves ignores files edits ->
    Staged moves ignores (file :: files) edits
| staged_changed file files edits originalText currentText :
    ignores (relativePathPosix file) = Normal false ->
    openTextDocument file = Normal originalText ->
    applyMoves moves originalText false = Some (currentText, true) ->
    Staged moves ignores files edits ->
    Staged moves ignores (file :: files)
      ((relativePathPosix file, currentText) :: edits).

(** The loop throws at the file: the ignore test throws on its path, or
    the file is not excluded and its document cannot be opened. *)
Definition throwsAt (ignores : jsstring -> Completion bool)
  (file : SourceFile) : Prop :=
  ignores (relativePathPosix file) = Thrown
  \/ (ignores (relativePathPosix file) = Normal false
      /\ openTextDocument file = Thrown).

End SpecExtra.

(* ================================================================= *)
(** ** More example inputs *)

Module ExtraExamples.
Import JS PathResolver Refactor IgnoreManager Examples Extension ProjectFile.

(** A project tree with two mapped directories. *)
Definition projectExample : ProjectTreeNode :=
  NodeObject
    [(str "$className", NodeString (str "DataModel"));
     (str "ServerScriptService",
      NodeObject [(str "$path", NodeString (str "src/server"))]);
     (str "ReplicatedStorage",
      NodeObject
        [(str "Shared",
          NodeObject [(str "$path", NodeString (str "src/shared"))])])].

(** A project tree that maps no directory. *)
Definition treeWithoutPaths : ProjectTreeNode :=
  NodeObject
    [(str "$className", NodeString (str "DataModel"));
     (str "Workspace",
      NodeObject [(str "$className", NodeString (str "Workspace"))])].

(** The entries of a tree whose root maps the directory src. *)
Definition rootMapped : list (jsstring * ProjectTreeNode) :=
  [(str "$path", NodeString (str "src"));
   (str "ServerScriptService",
    NodeObject [(str "$path", NodeString (str "src/server"))])].

(** A workspace with two project files, the first of them unreadable. *)
Definition brokenProjectWorkspace : Workspace :=
  {| readdir :=
       Normal [str "README.md"; str "default.project.json";
               str "place.project.json"];
     readTree := fun file =>
       if eqs file (str "default.project.json") then Thrown
       else Normal (Some projectExample) |}.

(** A move of a module inside the service S. *)
Definition moduleMove : FileMovement :=
  {| oldPath := serviceS ++ str ".OldModule";
     newPath := serviceS ++ str ".NewModule" |}.

(** A text without declarations, and one that mentions a name twice on
    its own and once inside a longer name. *)
Definition plainReference : jsstring :=
  str "return require(" ++ serviceS ++ str ".A)".

Definition legacyText : jsstring := str "require(Module) Module2 Module".

(** The files of a workspace: one with a reference through an alias, one
    that the ignore list excludes, one without a reference, one whose
    path leaves the workspace folder, and one more. *)
Definition workspaceFiles : list SourceFile :=
  [{| relativePathPosix := str "src/a.lua";
      openTextDocument := Normal aliasReference |};
   {| relativePathPosix := str "node_modules/b.lua";
      openTextDocument := Normal aliasReference |};
   {| relativePathPosix := str "src/c.lua";
      openTextDocument := Normal plainReference |};
   {| relativePathPosix := str "../d.lua";
      openTextDocument := Normal aliasReference |};
   {| relativePathPosix := str "src/e.lua";
      openTextDocument := Normal aliasReference |}].

(** An ignore test that excludes node_modules and throws on a path that
    leaves the folder. *)
Definition ignoresNodeModules (file : jsstring) : Completion bool :=
  if startsWith file (str "../") then Thrown
  else Normal (startsWith file (str "node_modules/")).

End ExtraExamples.

(* ================================================================= *)
(** ** Properties *)

Import JS PathResolver Refactor IgnoreManager Spec Examples.

(** *** Strings *)

Section StringFacts.

Lemma eqs_refl (a : jsstring) : eqs a a = true.
Proof.
  induction a as [|c a IH]; simpl; [reflexivity|].
  now rewrite Ascii.eqb_refl.
Qed.

Lemma eqs_eq (a b : jsstring) : eqs a b = true <-> a = b.
Proof.
  split.
  - revert b; induction a as [|c a IH]; intros [|d b] H; simpl in H;
      try discriminate; [reflexivity|].
    apply andb_true_iff in H as [Hc Hr].
    apply Ascii.eqb_eq in Hc. apply IH in Hr. now subst.
  - intros ->. apply eqs_refl.
Qed.

Lemma eqs_neq (a b : jsstring) : eqs a b = false <-> a <> b.
Proof.
  split.
  - intros H E. apply eqs_eq in E. congruence.
  - intros H. destruct (eqs a b) eqn:E; [|reflexivity].
    apply eqs_eq in E. contradiction.
Qed.

Lemma stripPrefix_app (p s : jsstring) : stripPrefix p (p ++ s) = Some s.
Proof.
  induction p as [|c p IH]; simpl; [reflexivity|].
  now rewrite Ascii.eqb_refl.
Qed.

Lemma stripPrefix_Some (p s r : jsstring) :
  stripPrefix p s = Some r -> s = p ++ r.
Proof.
  revert s; induction p as [|c p IH]; simpl; intros s H.
  - congruence.
  - destruct s as [|d s]; [discriminate|].
    destruct (Ascii.eqb d c) eqn:E; [|discriminate].
    apply Ascii.eqb_eq in E. subst d. f_equal. now apply IH.
Qed.

Lemma startsWith_app (p s : jsstring) : startsWith (p ++ s) p = true.
Proof.
  induction p as [|c p IH]; simpl; [reflexivity|].
  now rewrite Ascii.eqb_refl.
Qed.

Lemma startsWith_prefix (s p : jsstring) :
  startsWith s p = true -> exists r, s = p ++ r.
Proof.
  revert s; induction p as [|c p IH]; simpl; intros s H.
  - now exists s.
  - destruct s as [|d s]; [discriminate|].
    apply andb_true_iff in H as [Hc Hr].
    apply Ascii.eqb_eq in Hc. subst d.
    destruct (IH _ Hr) as [r ->]. now exists r.
Qed.

Lemma takeWhile_dropWhile (f : ascii -> bool) (s : jsstring) :
  takeWhile f s ++ dropWhile f s = s.
Proof.
  induction s as [|c s IH]; simpl; [reflexivity|].
  destruct (f c); simpl; [now rewrite IH|reflexivity].
Qed.

Lemma takeWhile_all (f : ascii -> bool) (s : jsstring) :
  forallb f (takeWhile f s) = true.
Proof.
  induction s as [|c s IH]; simpl; [reflexivity|].
  destruct (f c) eqn:E; simpl; [now rewrite E|reflexivity].
Qed.

Lemma takeWhile_app_stop (f : ascii -> bool) (a : jsstring) (c : ascii)
  (b : jsstring) :
  forallb f a = true -> f c = false ->
  takeWhile f (a ++ c :: b) = a /\ dropWhile f (a ++ c :: b) = c :: b.
Proof.
  intros Ha Hc. induction a as [|d a IH]; simpl in *.
  - now rewrite Hc.
  - apply andb_true_iff in Ha as [Hd Ha]. rewrite Hd.
    destruct (IH Ha) as [-> ->]. now split.
Qed.

End StringFacts.

(** *** Moves that are not in the anchor grammar *)

Section MalformedMoves.

(** C6: when the old or the new path does not match the anchor-access
    grammar, [applyRefactorOnText] returns its text unchanged (nothing is
    raised), and in the loop over the moves of a file the move is passed
    over: the loop goes on with the moves that follow, from the same
    text and the same dirty flag. *)
Theorem malformed_move_is_skipped
  (text : jsstring) (move : FileMovement) (moves : list FileMovement)
  (isFileDirty : bool) :
  serviceRegex (oldPath move) = None \/ serviceRegex (newPath move) = None ->
  applyRefactorOnText text (oldPath move) (newPath move) = Some text
  /\ applyMoves (move :: moves) text isFileDirty
     = applyMoves moves text isFileDirty.
Proof.
  intros H.
  assert (E : applyRefactorOnText text (oldPath move) (newPath move)
              = Some text).
  { unfold applyRefactorOnText.
    destruct H as [H|H]; rewrite H.
    - reflexivity.
    - destruct (serviceRegex (oldPath move)) as [[? ?]|]; reflexivity. }
  split; [exact E|].
  simpl. rewrite E. now rewrite eqs_refl.
Qed.

Lemma malformed_move_is_skipped_witness :
  let text := str "local m = require(game.Mod)" in
  let move := {| oldPath := str "game.Mod";
                 newPath := getService (str "S") ++ str ".Mod" |} in
  applyRefactorOnText text (oldPath move) (newPath move) = Some text
  /\ applyMoves [move] text false = applyMoves [] text false.
Proof.
  intros text move.
  apply (malformed_move_is_skipped text move [] false).
  left. reflexivity.
Defined.

End MalformedMoves.

(** *** The ignore list *)

Section IgnoreList.

Context {L : IgnoreLibrary}.

Lemma getIgnore_resolves (workspaceFolder : option jsstring)
  (readFile : jsstring -> jsstring -> Completion jsstring) :
  exists ig, getIgnore workspaceFolder readFile = Normal ig.
Proof.
  unfold getIgnore. destruct workspaceFolder as [folder|]; [|eauto].
  destruct (readFile folder IGNORE_NAME); simpl; eauto.
Qed.

(** C8: when the ignore file of the workspace is missing or cannot be
    read, [getIgnore] still resolves (the failure is caught, not passed
    on to the caller), and the instance it resolves to ignores a path
    exactly when the instance holding only the two built-in patterns,
    .git and node_modules, ignores it. *)
Theorem getIgnore_falls_back_to_defaults
  (workspaceFolder : option jsstring)
  (readFile : jsstring -> jsstring -> Completion jsstring) :
  (forall folder, workspaceFolder = Some folder ->
                  readFile folder IGNORE_NAME = Thrown) ->
  exists ig,
    getIgnore workspaceFolder readFile = Normal ig
    /\ forall path, ignores ig path = ignores defaultIgnore path.
Proof.
  intros Hread. unfold getIgnore.
  destruct workspaceFolder as [folder|].
  - rewrite (Hread folder eq_refl). simpl.
    exists defaultIgnore. split; reflexivity.
  - exists defaultIgnore. split; reflexivity.
Qed.

End IgnoreList.

Lemma getIgnore_falls_back_to_defaults_witness :
  exists ig : @Ignore namesIgnore,
    @getIgnore namesIgnore (Some (str "/work")) (fun _ _ => Thrown) = Normal ig
    /\ forall path,
         @ignores namesIgnore ig path
         = @ignores namesIgnore (@defaultIgnore namesIgnore) path.
Proof.
  apply (@getIgnore_falls_back_to_defaults namesIgnore
           (Some (str "/work")) (fun _ _ => Thrown)).
  intros folder _. reflexivity.
Defined.

(** *** Path resolution *)

Section PathResolution.

Lemma appendParts_app (result part : jsstring) (parts more : list jsstring) :
  fold_left appendName more (appendParts result (part :: parts))
  = appendParts result (part :: parts ++ more).
Proof.
  simpl. now rewrite fold_left_app.
Qed.

Lemma convertFallback_parts (dir moduleName : jsstring) :
  convertFallback dir moduleName
  = if isInit moduleName
    then appendParts (str "game") (fallbackParts dir)
    else appendName (appendParts (str "game") (fallbackParts dir)) moduleName.
Proof.
  unfold convertFallback, fallbackParts.
  destruct (filter keepPart (split "/" dir)) as [|first rest];
    [reflexivity|].
  destruct (eqs first (str "src")); reflexivity.
Qed.

(** [convertToRobloxPath] is the path of the containing directory, with
    the module name appended unless it starts with init. *)
Lemma convertToRobloxPath_directory (filePath : jsstring)
  (tree : option ProjectTreeNode) :
  convertToRobloxPath filePath tree
  = if isInit (moduleNameOf (basename filePath))
    then directoryRobloxPath filePath tree
    else appendName (directoryRobloxPath filePath tree)
           (moduleNameOf (basename filePath)).
Proof.
  unfold convertToRobloxPath, directoryRobloxPath, resolvedParts.
  destruct tree as [projectTree|]; [|apply convertFallback_parts].
  destruct (searchTree projectTree _ _) as [[[|part treeRest] remaining]|];
    try apply convertFallback_parts.
  rewrite appendParts_app.
  now destruct (isInit (moduleNameOf (basename filePath))).
Qed.

Lemma lowerChar_is (c : ascii) (l u : ascii) :
  (l = "i" /\ u = "I") \/ (l = "n" /\ u = "N") \/ (l = "t" /\ u = "T") ->
  Ascii.eqb (lowerChar c) l = true <-> c = l \/ c = u.
Proof.
  intros H. split.
  - intros E. apply Ascii.eqb_eq in E.
    destruct H as [[-> ->]|[[-> ->]|[-> ->]]];
      destruct c as [[] [] [] [] [] [] [] []]; vm_compute in E;
      try discriminate; auto.
  - intros [->| ->]; destruct H as [[-> ->]|[[-> ->]|[-> ->]]]; reflexivity.
Qed.

(** The test of the source, [moduleName.toLowerCase().startsWith('init')],
    holds exactly of the names that begin with i, n, i, t in any case. *)
Lemma isInit_beginsWithInit (name : jsstring) :
  isInit name = true <-> beginsWithInit name.
Proof.
  unfold isInit, beginsWithInit, toLowerCase. split.
  - destruct name as [|c1 [|c2 [|c3 [|c4 rest]]]]; simpl;
      rewrite ?andb_false_r; try discriminate.
    rewrite andb_true_r. rewrite !andb_true_iff.
    intros (H1 & H2 & H3 & H4).
    apply (lowerChar_is c1 "i" "I") in H1; [|tauto].
    apply (lowerChar_is c2 "n" "N") in H2; [|tauto].
    apply (lowerChar_is c3 "i" "I") in H3; [|tauto].
    apply (lowerChar_is c4 "t" "T") in H4; [|tauto].
    exists c1, c2, c3, c4, rest. tauto.
  - intros (c1 & c2 & c3 & c4 & rest & -> & H1 & H2 & H3 & H4). simpl.
    apply (lowerChar_is c1 "i" "I") in H1; [|tauto].
    apply (lowerChar_is c2 "n" "N") in H2; [|tauto].
    apply (lowerChar_is c3 "i" "I") in H3; [|tauto].
    apply (lowerChar_is c4 "t" "T") in H4; [|tauto].
    now rewrite H1, H2, H3, H4.
Qed.

Lemma directoryRobloxPath_dirname (filePath other : jsstring)
  (tree : option ProjectTreeNode) :
  dirname other = dirname filePath ->
  directoryRobloxPath other tree = directoryRobloxPath filePath tree.
Proof.
  intros E. unfold directoryRobloxPath, resolvedParts. now rewrite E.
Qed.

(** C9: a file whose module name begins with the letters init in any
    letter case (Initializer.lua, initSetup.luau) loses its module-name
    segment: it resolves to the path of its containing directory, the
    very string a true init file of the same directory resolves to. *)
Theorem init_prefixed_module_is_omitted
  (filePath : jsstring) (tree : option ProjectTreeNode) :
  beginsWithInit (moduleNameOf (basename filePath)) ->
  convertToRobloxPath filePath tree = directoryRobloxPath filePath tree
  /\ forall initFile,
       dirname initFile = dirname filePath ->
       moduleNameOf (basename initFile) = str "init" ->
       convertToRobloxPath initFile tree = convertToRobloxPath filePath tree.
Proof.
  intros H. apply isInit_beginsWithInit in H.
  assert (E : convertToRobloxPath filePath tree
              = directoryRobloxPath filePath tree).
  { rewrite convertToRobloxPath_directory. now rewrite H. }
  split; [exact E|].
  intros initFile Hdir Hname.
  rewrite E, convertToRobloxPath_directory, Hname. simpl.
  now apply directoryRobloxPath_dirname.
Qed.

Lemma init_prefixed_module_is_omitted_witness :
  convertToRobloxPath (str "src/ServerScriptService/Initializer.lua") None
  = getService (str "ServerScriptService")
  /\ convertToRobloxPath (str "src/ServerScriptService/init.lua") None
     = convertToRobloxPath (str "src/ServerScriptService/Initializer.lua") None.
Proof.
  assert (Hname : beginsWithInit
                    (moduleNameOf
                       (basename
                          (str "src/ServerScriptService/Initializer.lua")))).
  { exists "I", "n", "i", "t", (str "ializer"). vm_compute. tauto. }
  destruct (init_prefixed_module_is_omitted
              (str "src/ServerScriptService/Initializer.lua") None Hname)
    as [Hdir Hinit].
  split.
  - rewrite Hdir. reflexivity.
  - apply Hinit; reflexivity.
Defined.

Example initSetup_is_omitted :
  convertToRobloxPath (str "src/ReplicatedStorage/Shared/initSetup.luau") None
  = getService (str "ReplicatedStorage") ++ str ".Shared".
Proof. reflexivity. Qed.

(** C5, as stated, fails: the init file of src/ServerScriptService and
    the bare path src/ServerScriptService resolve to different strings,
    the second having no directory left to name the service. *)
Lemma init_file_differs_from_bare_directory :
  convertToRobloxPath (str "src/ServerScriptService/init.server.lua") None
  <> convertToRobloxPath (str "src/ServerScriptService") None.
Proof. vm_compute. discriminate. Qed.

Example bare_directory_resolution :
  convertToRobloxPath (str "src/ServerScriptService") None
  = str "game.ServerScriptService".
Proof. reflexivity. Qed.

End PathResolution.

(** *** The anchor grammar and the paths [convertToRobloxPath] returns *)

Section AnchorGrammar.

Lemma serviceRegex_getService (name rest : jsstring) :
  name <> [] -> noQuote name = true -> noLineTerminator rest = true ->
  serviceRegex (getService name ++ rest) = Some (name, rest).
Proof.
  intros Hne Hq Hlt. unfold serviceRegex, getService.
  rewrite <- !app_assoc, stripPrefix_app.
  unfold getServiceClose. rewrite <- app_assoc. simpl app.
  destruct (takeWhile_app_stop (fun c => negb (Ascii.eqb c dquote))
              name dquote (str ")" ++ rest) Hq eq_refl) as [Ht Hd].
  simpl app in Ht, Hd. rewrite Ht, Hd.
  destruct name as [|c name]; [contradiction|].
  simpl. unfold noLineTerminator in Hlt. now rewrite Hlt.
Qed.

Lemma serviceRegex_shape (path name rest : jsstring) :
  serviceRegex path = Some (name, rest) ->
  path = getService name ++ rest
  /\ name <> [] /\ noQuote name = true /\ noLineTerminator rest = true.
Proof.
  unfold serviceRegex. intros H.
  destruct (stripPrefix getServiceOpen path) as [afterOpen|] eqn:E1;
    [|discriminate].
  apply stripPrefix_Some in E1.
  pose proof (takeWhile_dropWhile
                (fun c => negb (Ascii.eqb c dquote)) afterOpen) as Hsplit.
  pose proof (takeWhile_all
                (fun c => negb (Ascii.eqb c dquote)) afterOpen) as Hall.
  destruct (takeWhile _ afterOpen) as [|c nm] eqn:E2; [discriminate|].
  destruct (stripPrefix getServiceClose (dropWhile _ afterOpen))
    as [r|] eqn:E3; [|discriminate].
  apply stripPrefix_Some in E3.
  destruct (forallb _ r) eqn:E4; [|discriminate].
  injection H as <- <-.
  repeat split; try assumption; try discriminate.
  unfold getService. rewrite E1, <- Hsplit, E3.
  now rewrite <- !app_assoc.
Qed.

Lemma noLineTerminator_app (a b : jsstring) :
  noLineTerminator (a ++ b) = noLineTerminator a && noLineTerminator b.
Proof. apply forallb_app. Qed.

Lemma appendName_suffix (result name : jsstring) :
  noLineTerminator name = true ->
  exists added,
    appendName result name = result ++ added
    /\ noLineTerminator added = true.
Proof.
  intros H. unfold appendName, formatRobloxName.
  destruct (includes name (str " ")).
  - simpl startsWith. eexists. split; [reflexivity|].
    rewrite !noLineTerminator_app, H. reflexivity.
  - destruct (startsWith name (str "[")).
    + exists name. now split.
    + exists (str "." ++ name). split; [reflexivity|].
      now rewrite noLineTerminator_app, H.
Qed.

Lemma appendNames_suffix (parts : list jsstring) (result : jsstring) :
  Forall (fun part => noLineTerminator part = true) parts ->
  exists added,
    fold_left appendName parts result = result ++ added
    /\ noLineTerminator added = true.
Proof.
  intros H. revert result. induction H as [|part parts Hp _ IH];
    intros result; simpl.
  - exists []. now rewrite app_nil_r.
  - destruct (appendName_suffix result part Hp) as (a1 & -> & H1).
    destruct (IH (result ++ a1)) as (a2 & -> & H2).
    exists (a1 ++ a2). rewrite <- app_assoc. split; [reflexivity|].
    now rewrite noLineTerminator_app, H1, H2.
Qed.

Lemma appendService_game (part : jsstring) :
  appendService (str "game") part = getService part.
Proof. reflexivity. Qed.

Lemma keepPart_nonempty (part : jsstring) : keepPart part = true -> part <> [].
Proof. destruct part; [discriminate|discriminate]. Qed.

Lemma fallbackParts_nonempty (dir part : jsstring) :
  In part (fallbackParts dir) -> part <> [].
Proof.
  unfold fallbackParts. intros H. apply keepPart_nonempty.
  assert (Hin : In part (filter keepPart (split "/" dir))).
  { destruct (filter keepPart (split "/" dir)) as [|first rest];
      [contradiction|].
    destruct (eqs first (str "src")); [now right|exact H]. }
  now apply filter_In in Hin.
Qed.

(** C4, as stated, fails: a file at the root of the workspace has no
    directory to name the service, and the string returned for it is
    not in the anchor grammar. *)
Lemma root_file_is_outside_the_grammar :
  convertToRobloxPath (str "Mod.lua") None = str "game.Mod"
  /\ ~ matchesGrammar (convertToRobloxPath (str "Mod.lua") None).
Proof.
  split; [reflexivity|].
  intros (name & rest & H). vm_compute in H. discriminate.
Qed.

End AnchorGrammar.

(** *** The declaration lookup of the primary pass *)

Section DeclarationLookup.

Lemma serviceDeclarationAt_nil (serviceName : jsstring) :
  serviceDeclarationAt serviceName [] = None.
Proof. reflexivity. Qed.

Lemma skipn_step {A : Type} (j : nat) (c : A) (l : list A) :
  skipn (S j) (c :: l) = skipn j l.
Proof. reflexivity. Qed.

(** The lookup returns the alias of the textually first declaration. *)
Lemma execServiceDeclaration_first (serviceName text : jsstring) :
  FirstDeclaration serviceName text
    (execServiceDeclaration serviceName text).
Proof.
  induction text as [|c text IH].
  - simpl. intros [|j]; reflexivity.
  - cbn [execServiceDeclaration].
    destruct (serviceDeclarationAt serviceName (c :: text)) as [alias|] eqn:E.
    + exists 0. split; [exact E|]. intros j Hj. lia.
    + destruct (execServiceDeclaration serviceName text) as [alias|].
      * destruct IH as (i & Hi & Hbefore).
        exists (S i). split; [exact Hi|].
        intros [|j] Hj; [exact E|].
        rewrite skipn_step. apply Hbefore. lia.
      * intros [|j]; [exact E|]. rewrite skipn_step. apply IH.
Qed.

(** There is one first declaration at most. *)
Lemma FirstDeclaration_unique (serviceName text : jsstring)
  (found found' : option jsstring) :
  FirstDeclaration serviceName text found ->
  FirstDeclaration serviceName text found' ->
  found = found'.
Proof.
  destruct found as [a|], found' as [b|]; simpl.
  - intros (i & Hi & Hbi) (j & Hj & Hbj).
    destruct (Nat.lt_trichotomy i j) as [Hlt|[->|Hlt]].
    + rewrite (Hbj i Hlt) in Hi. discriminate.
    + congruence.
    + rewrite (Hbi j Hlt) in Hj. discriminate.
  - intros (i & Hi & _) Hnone. rewrite Hnone in Hi. discriminate.
  - intros Hnone (j & Hj & _). rewrite Hnone in Hj. discriminate.
  - reflexivity.
Qed.

Lemma identifierAssigned_truthy (s name rest : jsstring) :
  identifierAssigned s = Some (name, rest) -> truthy name = true.
Proof.
  unfold identifierAssigned. intros H.
  destruct s as [|c s0]; [discriminate|].
  destruct (isSpace c); [|discriminate].
  destruct (dropWhile isSpace (c :: s0)) as [|i afterStart]; [discriminate|].
  destruct (isIdentStart i); [|discriminate].
  destruct (dropWhile isSpace (dropWhile isWord afterStart)) as [|e ae];
    [discriminate|].
  destruct (Ascii.eqb e "="); [|discriminate].
  injection H as <- _. reflexivity.
Qed.

Lemma serviceDeclarationAt_truthy (serviceName s alias : jsstring) :
  serviceDeclarationAt serviceName s = Some alias -> truthy alias = true.
Proof.
  unfold serviceDeclarationAt. intros H.
  destruct (stripPrefix (str "local") s) as [afterLocal|]; [|discriminate].
  destruct (identifierAssigned afterLocal) as [[name afterEquals]|] eqn:E;
    [|discriminate].
  destruct (startsWith _ _); [|discriminate].
  injection H as <-. now apply identifierAssigned_truthy in E.
Qed.

Lemma execServiceDeclaration_truthy (serviceName text alias : jsstring) :
  execServiceDeclaration serviceName text = Some alias ->
  truthy alias = true.
Proof.
  induction text as [|c text IH]; cbn [execServiceDeclaration].
  - rewrite serviceDeclarationAt_nil. discriminate.
  - destruct (serviceDeclarationAt serviceName (c :: text)) as [a|] eqn:E.
    + intros [= <-]. now apply serviceDeclarationAt_truthy in E.
    + exact IH.
Qed.

End DeclarationLookup.

Section DeclarationLookupExample.

(** Of two variables bound to the service itself the lookup takes the
    first. *)
Example first_of_two_declarations_is_found :
  anchorAliases (str "S") twoDeclarations = [str "A"; str "B"]
  /\ execServiceDeclaration (str "S") twoDeclarations = Some (str "A").
Proof. split; vm_compute; reflexivity. Qed.

(** C10 does not hold of the code: the declaration patterns end with
    the access to the service, so they also match a variable bound to a
    child of the service, and the lookup takes it for the alias of the
    service when it comes first.  The file binds Remotes to the child
    Remotes of the service S, then RS and RS2 to S itself, and refers to
    the old path in full; the module OldModule of S is renamed to
    NewModule.  The claim promises the reference rewritten with RS, the
    first variable bound to the anchor; the code rewrites it with
    Remotes, and the reference then denotes a module below the child. *)
Lemma primary_pass_takes_child_binding_for_alias :
  let oldPath := serviceS ++ str ".OldModule" in
  let newPath := serviceS ++ str ".NewModule" in
  let declarations :=
    str "local Remotes = " ++ serviceS ++ str ".Remotes" ++ lf
    ++ str "local RS = " ++ serviceS ++ lf
    ++ str "local RS2 = " ++ serviceS ++ lf in
  let promised :=
    declarations ++ str "local m = require(RS.NewModule)" ++ lf in
  let written :=
    declarations ++ str "local m = require(Remotes.NewModule)" ++ lf in
  anchorAliases (str "S") childBindingFirst = [str "RS"; str "RS2"]
  /\ mapGet (str "Remotes") (parseVariablesToAbsoluteMap childBindingFirst)
     = Some (serviceS ++ str ".Remotes")
  /\ execServiceDeclaration (str "S") childBindingFirst = Some (str "Remotes")
  /\ Substituted oldPath
       (replacementFor (Some (str "RS")) (Some (str "RS"))
          (str "S") (str ".NewModule"))
       childBindingFirst promised
  /\ applyRefactorOnText childBindingFirst oldPath newPath = Some written
  /\ written <> promised.
Proof.
  intros oldPath newPath declarations promised written.
  split; [vm_compute; reflexivity|]. split; [vm_compute; reflexivity|].
  split; [vm_compute; reflexivity|]. split; [|split].
  - refine (substituted_first oldPath (str "RS" ++ str ".NewModule")
              (declarations ++ str "local m = require(")
              (str ")" ++ lf) (str ")" ++ lf) _ _).
    + vm_compute. reflexivity.
    + apply substituted_none. vm_compute. reflexivity.
  - vm_compute. reflexivity.
  - vm_compute. discriminate.
Qed.

End DeclarationLookupExample.

(** *** The replacement policy of the primary pass *)

Section ReplacementPolicy.

(** The policy of the primary pass.  With both paths in the anchor
    grammar, the text handed to the nested pass is obtained as follows.
    When an alias of the old anchor is declared and the alias followed
    by the old suffix occurs in the text, [replaceAll] is applied to
    that string; otherwise, when the old path occurs in the text,
    [replaceAll] is applied to the old path; otherwise the text is kept.
    In both cases the replacement handed to [replaceAll] is the one of
    the three-way policy [replacementFor]: the old alias with the new
    suffix when it is also the alias of the new anchor, the alias of the
    new anchor with the new suffix when there is a distinct one, the
    service access of the new anchor with the new suffix when the new
    anchor has no alias. *)
Lemma primary_pass_replacement_policy
  (text oldPath newPath : jsstring)
  (oldServiceName oldPathSuffix newServiceName newPathSuffix : jsstring) :
  serviceRegex oldPath = Some (oldServiceName, oldPathSuffix) ->
  serviceRegex newPath = Some (newServiceName, newPathSuffix) ->
  regexPlain oldServiceName = true ->
  regexPlain newServiceName = true ->
  let aliasOld := execServiceDeclaration oldServiceName text in
  let aliasNew := execServiceDeclaration newServiceName text in
  let replacement :=
    replacementFor aliasOld aliasNew newServiceName newPathSuffix in
  let aliasFormPresent :=
    match aliasOld with
    | Some alias => includes text (alias ++ oldPathSuffix)
    | None => false
    end in
  exists newText,
    applyRefactorOnText text oldPath newPath
    = Some (applyNestedRefactoring newText oldPath newPath)
    /\ (forall alias,
          aliasOld = Some alias ->
          includes text (alias ++ oldPathSuffix) = true ->
          newText = replaceAll text (alias ++ oldPathSuffix) replacement)
    /\ (aliasFormPresent = false -> includes text oldPath = true ->
        newText = replaceAll text oldPath replacement)
    /\ (aliasFormPresent = false -> includes text oldPath = false ->
        newText = text).
Proof.
  intros Hold Hnew Hpo Hpn aliasOld aliasNew replacement aliasFormPresent.
  exists (rewriteReference text oldPath oldPathSuffix newServiceName
            newPathSuffix aliasOld aliasNew).
  split.
  { unfold applyRefactorOnText. now rewrite Hold, Hnew, Hpo, Hpn. }
  assert (Hpolicy :
    replacement
    = match aliasOld with
      | Some oldVariable =>
          if looseEq aliasOld aliasNew then oldVariable ++ newPathSuffix
          else if truthyOpt aliasNew then orEmpty aliasNew ++ newPathSuffix
          else getService newServiceName ++ newPathSuffix
      | None =>
          if truthyOpt aliasNew then orEmpty aliasNew ++ newPathSuffix
          else getService newServiceName ++ newPathSuffix
      end).
  { subst replacement. unfold replacementFor.
    destruct aliasNew as [b|] eqn:En.
    - apply execServiceDeclaration_truthy in En.
      destruct aliasOld as [a|]; simpl; rewrite En; [|reflexivity].
      now destruct (eqs a b).
    - now destruct aliasOld. }
  subst aliasFormPresent. unfold rewriteReference.
  destruct aliasOld as [a|] eqn:Eo.
  - destruct (includes text (a ++ oldPathSuffix)) eqn:Ealias.
    + split; [|split]; try discriminate.
      intros alias [= <-] _. rewrite Hpolicy.
      destruct (looseEq (Some a) aliasNew); [reflexivity|].
      now destruct (truthyOpt aliasNew).
    + split; [|split].
      * intros alias [= <-] H. congruence.
      * intros _ Hfull. rewrite Hfull, Hpolicy.
        destruct (looseEq (Some a) aliasNew); [reflexivity|].
        now destruct (truthyOpt aliasNew).
      * intros _ Hfull. now rewrite Hfull.
  - split; [|split].
    + discriminate.
    + intros _ Hfull. rewrite Hfull, Hpolicy.
      now destruct (truthyOpt aliasNew).
    + intros _ Hfull. now rewrite Hfull.
Qed.

End ReplacementPolicy.

(** *** What [replaceAll] does *)

Section ReplaceAll.

Lemma getSubstitution_plain (matched before after template : jsstring) :
  forallb (fun c => negb (Ascii.eqb c "$")) template = true ->
  getSubstitution matched before after template = template.
Proof.
  induction template as [|c t IH]; simpl; [reflexivity|].
  intros H. apply andb_true_iff in H as [Hc Ht].
  apply negb_true_iff in Hc. rewrite Hc. now rewrite IH.
Qed.

Lemma replaceAllFrom_skip (p r : jsstring) (k : nat) :
  forall s seen,
    k <= List.length s ->
    replaceAllFrom p r seen k s
    = replaceAllFrom p r (rev (firstn k s) ++ seen) 0 (skipn k s).
Proof.
  induction k as [|k IH]; intros s seen Hk.
  - reflexivity.
  - destruct s as [|c s]; [simpl in Hk; lia|].
    simpl in Hk. cbn [replaceAllFrom firstn skipn rev].
    rewrite IH by lia. now rewrite <- app_assoc.
Qed.

Lemma startsWith_longer (s p : jsstring) :
  List.length s < List.length p -> startsWith s p = false.
Proof.
  revert s; induction p as [|c p IH]; intros s H; simpl in *; [lia|].
  destruct s as [|d s]; [reflexivity|].
  simpl in H. rewrite IH by lia. apply andb_false_r.
Qed.

Lemma includes_longer (s p : jsstring) :
  List.length s < List.length p -> includes s p = false.
Proof.
  induction s as [|d s IH]; intros H; simpl.
  - rewrite startsWith_longer by exact H. reflexivity.
  - rewrite startsWith_longer by exact H. simpl in H. apply IH. lia.
Qed.

Lemma startsWith_extend (a b p : jsstring) :
  startsWith a p = true -> startsWith (a ++ b) p = true.
Proof.
  intros H. apply startsWith_prefix in H as [r ->].
  rewrite <- app_assoc. apply startsWith_app.
Qed.

Lemma includes_cons (c : ascii) (s p : jsstring) :
  includes (c :: s) p = startsWith (c :: s) p || includes s p.
Proof. reflexivity. Qed.

Lemma includes_unfold (s p : jsstring) :
  includes s p
  = startsWith s p || match s with [] => false | _ :: s' => includes s' p end.
Proof. destruct s; reflexivity. Qed.

Lemma includes_occurrence (before p after : jsstring) :
  includes (before ++ p ++ after) p = true.
Proof.
  induction before as [|c before IH].
  - simpl app. rewrite includes_unfold, startsWith_app. reflexivity.
  - simpl app. rewrite includes_cons, IH. apply orb_true_r.
Qed.

Lemma removelast_shorter (p : jsstring) :
  p <> [] -> List.length (removelast p) < List.length p.
Proof.
  intros H. rewrite (app_removelast_last "000" H) at 2.
  rewrite length_app. simpl. lia.
Qed.

Lemma Substituted_cons (p r : jsstring) (c : ascii) (s out : jsstring) :
  p <> [] ->
  startsWith (c :: s) p = false ->
  Substituted p r s out ->
  Substituted p r (c :: s) (c :: out).
Proof.
  intros Hp Hhead H. inversion H as [s0 Hnone|before after out0 Hb Hrest];
    subst.
  - apply substituted_none. rewrite includes_cons, Hhead. exact Hnone.
  - apply (substituted_first p r (c :: before) after out0); [|exact Hrest].
    simpl app. rewrite includes_cons, Hb, orb_false_r.
    destruct (startsWith (c :: before ++ removelast p) p) eqn:E;
      [|reflexivity].
    apply (startsWith_extend _ ([last p "000"] ++ after)) in E.
    assert (Heq : (c :: before ++ removelast p) ++ [last p "000"] ++ after
                  = c :: before ++ p ++ after).
    { assert (Hp' : removelast p ++ [last p "000"] = p)
        by (symmetry; now apply app_removelast_last).
      simpl. rewrite <- !app_assoc. do 2 f_equal.
      change (last p "000" :: after) with ([last p "000"] ++ after).
      now rewrite app_assoc, Hp'. }
    rewrite Heq in E. congruence.
Qed.

(** With a non-empty pattern and a replacement free of dollar signs,
    [replaceAll] substitutes the replacement, as it is written, for
    every occurrence of the pattern. *)
Lemma replaceAll_substitutes (s p r : jsstring) :
  p <> [] ->
  forallb (fun c => negb (Ascii.eqb c "$")) r = true ->
  Substituted p r s (replaceAll s p r).
Proof.
  intros Hp Hr. unfold replaceAll. generalize (@nil ascii) as seen.
  remember (List.length s) as n eqn:Hn.
  assert (Hle : List.length s <= n) by lia. clear Hn.
  revert s Hle. induction n as [|n IH]; intros s Hle seen.
  - destruct s; [|simpl in Hle; lia].
    destruct p as [|c p]; [contradiction|].
    simpl. apply substituted_none. reflexivity.
  - destruct s as [|c s].
    + destruct p as [|d p]; [contradiction|].
      simpl. apply substituted_none. reflexivity.
    + simpl in Hle. cbn [replaceAllFrom].
      destruct (startsWith (c :: s) p) eqn:E.
      * rewrite getSubstitution_plain by exact Hr.
        destruct p as [|d p']; [contradiction|].
        apply startsWith_prefix in E as [after E].
        injection E as <- ->.
        rewrite replaceAllFrom_skip by (rewrite length_app; lia).
        rewrite skipn_app, skipn_all, Nat.sub_diag. simpl skipn.
        apply (substituted_first (c :: p') r [] after).
        -- apply includes_longer.
           apply (removelast_shorter (c :: p')). discriminate.
        -- apply IH. rewrite length_app in Hle. simpl. lia.
      * apply Substituted_cons; [exact Hp|exact E|].
        apply IH. lia.
Qed.

(** Where the pattern does not occur, nothing is substituted. *)
Lemma Substituted_absent (p r s out : jsstring) :
  includes s p = false -> Substituted p r s out -> out = s.
Proof.
  intros Hnone H. inversion H as [|before after out0 Hb Hrest]; subst.
  - reflexivity.
  - rewrite includes_occurrence in Hnone. discriminate.
Qed.

End ReplaceAll.

(** *** The alias index *)

Section AliasIndex.

Lemma dropWhile_incl (f : ascii -> bool) (s : jsstring) :
  incl (dropWhile f s) s.
Proof.
  induction s as [|c s IH]; simpl; [apply incl_refl|].
  destruct (f c); [now apply incl_tl|apply incl_refl].
Qed.

Lemma takeWhile_incl (f : ascii -> bool) (s : jsstring) :
  incl (takeWhile f s) s.
Proof.
  induction s as [|c s IH]; simpl; [apply incl_refl|].
  destruct (f c); [|apply incl_nil_l].
  intros x [->|Hx]; [now left|right; now apply IH].
Qed.

Lemma dropWhile_head (f : ascii -> bool) (s : jsstring) (c : ascii)
  (rest : jsstring) :
  dropWhile f s = c :: rest -> f c = false.
Proof.
  induction s as [|d s IH]; simpl; [discriminate|].
  destruct (f d) eqn:E; [exact IH|].
  intros [= -> _]. exact E.
Qed.





Lemma split_nonempty (sep : ascii) (s : jsstring) : split sep s <> [].
Proof.
  destruct s as [|c s]; simpl; [discriminate|].
  destruct (Ascii.eqb c sep); [discriminate|].
  destruct (split sep s); discriminate.
Qed.

Lemma split_incl (sep : ascii) (s part : jsstring) :
  In part (split sep s) -> incl part s.
Proof.
  revert part. induction s as [|c s IH]; simpl; intros part H.
  - destruct H as [<-|[]]. apply incl_refl.
  - destruct (Ascii.eqb c sep).
    + destruct H as [<-|H]; [apply incl_nil_l|].
      apply incl_tl. now apply IH.
    + destruct (split sep s) as [|h t] eqn:E.
      * destruct H as [<-|[]]. intros x [->|[]]. now left.
      * destruct H as [<-|H].
        -- intros x [->|Hx]; [now left|right].
           apply (IH h); [now left|exact Hx].
        -- apply incl_tl. apply IH. now right.
Qed.


Lemma noLineTerminator_incl (a b : jsstring) :
  incl a b -> noLineTerminator b = true -> noLineTerminator a = true.
Proof.
  unfold noLineTerminator. rewrite !forallb_forall. intros Hi Hb x Hx.
  apply Hb. now apply Hi.
Qed.




Lemma mapSet_in (k v k0 v0 : jsstring) (m : JsMap) :
  In (k, v) (mapSet k0 v0 m) -> (k, v) = (k0, v0) \/ In (k, v) m.
Proof.
  induction m as [|[k' v'] m IH]; simpl.
  - intros [H|[]]. left. now symmetry.
  - destruct (eqs k' k0).
    + intros [H|H]; [left; now symmetry|right; now right].
    + intros [H|H]; [right; now left|].
      destruct (IH H) as [E|E]; [now left|right; now right].
Qed.






End AliasIndex.

(** *** The nested pass *)

Section NestedPass.

Lemma commonPrefixLength_nil_r (a : list jsstring) :
  commonPrefixLength a [] = 0.
Proof. destruct a; reflexivity. Qed.

Lemma countSnippets_spec (pathSnippet : list jsstring) :
  forall variablePathSnippet localBiggest suffix,
    countSnippets variablePathSnippet pathSnippet localBiggest suffix
    = (localBiggest + commonPrefixLength variablePathSnippet pathSnippet,
       if Nat.ltb (commonPrefixLength variablePathSnippet pathSnippet)
            (List.length pathSnippet)
       then unmatched pathSnippet
              (commonPrefixLength variablePathSnippet pathSnippet)
       else suffix).
Proof.
  induction pathSnippet as [|segment pathSnippet IH];
    intros own localBiggest suffix.
  - rewrite commonPrefixLength_nil_r. simpl. now rewrite Nat.add_0_r.
  - destruct own as [|o own]; simpl.
    + now rewrite Nat.add_0_r.
    + destruct (eqs o segment).
      * rewrite IH. f_equal. lia.
      * now rewrite Nat.add_0_r.
Qed.

Lemma unmatched_all (segments : list jsstring) (count : nat) :
  List.length segments <= count -> unmatched segments count = [].
Proof.
  intros H. unfold unmatched. now rewrite skipn_all2.
Qed.

(** What one visit does to [biggestVariable] and [oldPaths]. *)
Lemma visitVariable_spec (oldPath newPath : jsstring)
  (biggestVariable : LongestVariable) (oldPaths : list LongestVariable)
  (entry : jsstring * jsstring) :
  let newCount :=
    commonPrefixLength (split "." (snd entry)) (split "." newPath) in
  visitVariable (split "." newPath) (split "." oldPath)
    (biggestVariable, oldPaths) entry
  = (if Nat.ltb (longestSnippetCount biggestVariable) newCount
     then {| variable := fst entry;
             longestSnippetCount := newCount;
             suffix := unmatched (split "." newPath) newCount |}
     else biggestVariable,
     oldPaths ++ [candidateFor oldPath newPath entry]).
Proof.
  destruct entry as [name path]. unfold visitVariable, candidateFor.
  cbn [fst snd]. rewrite !countSnippets_spec. cbn [Nat.add].
  set (newCount := commonPrefixLength (split "." path) (split "." newPath)).
  assert (Hs : (if Nat.ltb newCount (List.length (split "." newPath))
                then unmatched (split "." newPath) newCount else [])
               = unmatched (split "." newPath) newCount).
  { destruct (Nat.ltb newCount (List.length (split "." newPath))) eqn:E;
      [reflexivity|].
    apply Nat.ltb_ge in E. now rewrite unmatched_all. }
  rewrite Hs. reflexivity.
Qed.

(** The candidates are the entries of the index, in its order. *)
Lemma visitVariables_candidates (oldPath newPath : jsstring)
  (index : JsMap) :
  snd (visitVariables index oldPath newPath)
  = map (candidateFor oldPath newPath) index.
Proof.
  unfold visitVariables.
  set (start := {| variable := []; longestSnippetCount := 0;
                   suffix := newPath |}).
  change (map (candidateFor oldPath newPath) index)
    with ([] ++ map (candidateFor oldPath newPath) index).
  generalize (@nil LongestVariable) as oldPaths. generalize start as best.
  induction index as [|entry index IH]; intros best oldPaths.
  - simpl. now rewrite app_nil_r.
  - cbn [fold_left map]. rewrite visitVariable_spec, IH.
    now rewrite <- app_assoc.
Qed.

Lemma visitVariables_best (oldPath newPath : jsstring) (index : JsMap) :
  isBest newPath index (fst (visitVariables index oldPath newPath)).
Proof.
  unfold visitVariables.
  induction index as [|entry index IH] using rev_ind.
  - simpl. repeat split.
    + constructor.
    + intros H. simpl in H. lia.
  - rewrite fold_left_app. cbn [fold_left].
    destruct (fold_left _ index _) as [best oldPaths].
    rewrite visitVariable_spec. cbn [fst] in *.
    destruct IH as (Hmax & Hzero & Hpos).
    set (newCount :=
           commonPrefixLength (split "." (snd entry)) (split "." newPath)).
    destruct (Nat.ltb (longestSnippetCount best) newCount) eqn:E.
    + apply Nat.ltb_lt in E. repeat split; cbn [longestSnippetCount].
      * apply Forall_app. split.
        -- eapply Forall_impl; [|exact Hmax]. intros e He. simpl in He. lia.
        -- constructor; [|constructor]. fold newCount. lia.
      * intros H0. lia.
      * intros _. exists entry. repeat split.
        apply in_or_app. right. now left.
    + apply Nat.ltb_ge in E. repeat split.
      * apply Forall_app. split; [exact Hmax|].
        constructor; [|constructor]. fold newCount. exact E.
      * exact Hzero.
      * intros H. destruct (Hpos H) as (e & He & Hrest).
        exists e. split; [|exact Hrest]. apply in_or_app. now left.
Qed.

(** The sort keeps the elements and puts greater counts first. *)
Lemma insertByCount_perm (x : LongestVariable) (l : list LongestVariable) :
  Permutation (x :: l) (insertByCount x l).
Proof.
  induction l as [|y l IH]; simpl; [apply Permutation_refl|].
  destruct (Nat.ltb (longestSnippetCount x) (longestSnippetCount y)).
  - eapply perm_trans; [apply perm_swap|]. now apply perm_skip.
  - apply Permutation_refl.
Qed.

Lemma sortByCount_perm (l : list LongestVariable) :
  Permutation l (sortByCount l).
Proof.
  induction l as [|x l IH]; simpl; [constructor|].
  eapply perm_trans; [apply perm_skip, IH|]. apply insertByCount_perm.
Qed.

Lemma insertByCount_sorted (x : LongestVariable) (l : list LongestVariable) :
  StronglySorted countsDescend l ->
  StronglySorted countsDescend (insertByCount x l).
Proof.
  induction 1 as [|y l Hl IH Hy]; simpl.
  - repeat constructor.
  - destruct (Nat.ltb (longestSnippetCount x) (longestSnippetCount y)) eqn:E.
    + apply Nat.ltb_lt in E. constructor; [exact IH|].
      apply Forall_forall. intros z Hz.
      apply (Permutation_in _ (Permutation_sym (insertByCount_perm x l)))
        in Hz.
      destruct Hz as [<-|Hz].
      * unfold countsDescend. lia.
      * rewrite Forall_forall in Hy. now apply Hy.
    + apply Nat.ltb_ge in E. constructor; [now constructor|].
      constructor; [exact E|].
      eapply Forall_impl; [|exact Hy].
      unfold countsDescend. intros z Hz. lia.
Qed.

Lemma sortByCount_sorted (l : list LongestVariable) :
  StronglySorted countsDescend (sortByCount l).
Proof.
  induction l as [|x l IH]; simpl; [constructor|].
  now apply insertByCount_sorted.
Qed.

(** The sort is stable: the elements of one count keep their order. *)
Lemma insertByCount_stable (k : nat) (x : LongestVariable)
  (l : list LongestVariable) :
  StronglySorted countsDescend l ->
  filter (fun y => Nat.eqb (longestSnippetCount y) k) (insertByCount x l)
  = filter (fun y => Nat.eqb (longestSnippetCount y) k) (x :: l).
Proof.
  induction 1 as [|y l Hl IH Hy]; [reflexivity|].
  cbn [insertByCount].
  destruct (Nat.ltb (longestSnippetCount x) (longestSnippetCount y)) eqn:E;
    [|reflexivity].
  apply Nat.ltb_lt in E. cbn [filter] in *. rewrite IH.
  destruct (Nat.eqb (longestSnippetCount x) k) eqn:Ex;
    destruct (Nat.eqb (longestSnippetCount y) k) eqn:Ey; try reflexivity.
  apply Nat.eqb_eq in Ex, Ey. lia.
Qed.

Lemma sortByCount_stable (k : nat) (l : list LongestVariable) :
  filter (fun y => Nat.eqb (longestSnippetCount y) k) (sortByCount l)
  = filter (fun y => Nat.eqb (longestSnippetCount y) k) l.
Proof.
  induction l as [|x l IH]; [reflexivity|].
  simpl sortByCount.
  rewrite insertByCount_stable by apply sortByCount_sorted.
  cbn [filter]. now rewrite IH.
Qed.

End NestedPass.

Section NestedPassOrder.

(** The order of the nested pass.  Without an alias in the file the
    nested pass returns the text as it is.  Otherwise its candidates, one per alias of the index with
    the number of leading segments the alias shares with the old path,
    are gone through in descending order of that number; at each
    candidate, if its literal form (alias, dot, suffix, the dot left out
    when either part is empty) occurs in the current text, every
    occurrence is replaced with the literal form of the best alias for
    the new path, the alias sharing the longest segment prefix with the
    new path followed by the unmatched rest of the new path.  Candidates
    of one count keep the order of the index. *)
Lemma nested_pass_goes_by_specificity (text oldPath newPath : jsstring) :
  let index := parseVariablesToAbsoluteMap text in
  (index = [] -> applyNestedRefactoring text oldPath newPath = text)
  /\ exists best order,
       Permutation (map (candidateFor oldPath newPath) index) order
       /\ StronglySorted countsDescend order
       /\ (forall count,
             filter (fun c => Nat.eqb (longestSnippetCount c) count) order
             = filter (fun c => Nat.eqb (longestSnippetCount c) count)
                 (map (candidateFor oldPath newPath) index))
       /\ isBest newPath index best
       /\ (index <> [] ->
           applyNestedRefactoring text oldPath newPath
           = fold_left
               (fun current candidate =>
                  if includes current (literalForm candidate)
                  then replaceAll current (literalForm candidate)
                         (literalForm best)
                  else current)
               order text).
Proof.
  intros index. split.
  - intros H. unfold applyNestedRefactoring. fold index. now rewrite H.
  - exists (fst (visitVariables index oldPath newPath)),
           (sortByCount (snd (visitVariables index oldPath newPath))).
    split; [|split; [|split; [|split]]].
    + rewrite <- visitVariables_candidates. apply sortByCount_perm.
    + apply sortByCount_sorted.
    + intros count. rewrite <- visitVariables_candidates.
      apply sortByCount_stable.
    + apply visitVariables_best.
    + intros Hne. unfold applyNestedRefactoring. fold index.
      destruct index as [|entry index']; [contradiction|].
      now destruct (visitVariables (entry :: index') oldPath newPath).
Qed.

Example nested_pass_on_nested_reference :
  applyNestedRefactoring directReference
    (serviceS ++ str ".A") (serviceS ++ str ".B") = directReference
  /\ exists best order,
       Permutation
         (map (candidateFor (serviceS ++ str ".sub.path.more.Old")
                 (serviceS ++ str ".sub.other.New"))
            (parseVariablesToAbsoluteMap nestedReference)) order
       /\ StronglySorted countsDescend order
       /\ applyNestedRefactoring nestedReference
            (serviceS ++ str ".sub.path.more.Old")
            (serviceS ++ str ".sub.other.New")
          = fold_left
              (fun current candidate =>
                 if includes current (literalForm candidate)
                 then replaceAll current (literalForm candidate)
                        (literalForm best)
                 else current)
              order nestedReference.
Proof.
  split.
  - apply (proj1 (nested_pass_goes_by_specificity directReference
                    (serviceS ++ str ".A") (serviceS ++ str ".B"))).
    reflexivity.
  - destruct (proj2 (nested_pass_goes_by_specificity nestedReference
                       (serviceS ++ str ".sub.path.more.Old")
                       (serviceS ++ str ".sub.other.New")))
      as (best & order & Hperm & Hsorted & _ & _ & Hfold).
    exists best, order. split; [exact Hperm|]. split; [exact Hsorted|].
    apply Hfold. discriminate.
Qed.

Example nested_reference_rewritten :
  applyRefactorOnText nestedReference
    (serviceS ++ str ".sub.path.more.Old") (serviceS ++ str ".sub.other.New")
  = Some (str "local SSS = " ++ serviceS ++ lf
          ++ str "local Sub = SSS.sub.path" ++ lf
          ++ str "local m = require(Sub.other.New)" ++ lf).
Proof. vm_compute. reflexivity. Qed.

End NestedPassOrder.

(** *** A second pass over rewritten text *)

Section RepeatedPass.

(** C1, as stated, fails: when the new path begins with the old one
    (a module moved into a folder of its own name), the old path still
    occurs in the rewritten text and a second pass rewrites it again. *)
Lemma second_pass_rewrites_again :
  let oldPath := serviceS ++ str ".A" in
  let newPath := serviceS ++ str ".A.B" in
  applyRefactorOnText directReference oldPath newPath
  = Some (str "local m = require(" ++ serviceS ++ str ".A.B)")
  /\ applyRefactorOnText
       (str "local m = require(" ++ serviceS ++ str ".A.B)") oldPath newPath
     = Some (str "local m = require(" ++ serviceS ++ str ".A.B.B)")
  /\ ~ (forall once,
          applyRefactorOnText directReference oldPath newPath = Some once ->
          applyRefactorOnText once oldPath newPath = Some once).
Proof.
  intros oldPath newPath. split; [|split].
  - vm_compute. reflexivity.
  - vm_compute. reflexivity.
  - intros H. specialize (H _ eq_refl). vm_compute in H. discriminate.
Qed.

(** The same after a rename that extends the name. *)
Example renamed_module_is_rewritten_twice :
  applyRefactorOnText (str "require(" ++ serviceS ++ str ".Mod2)")
    (serviceS ++ str ".Mod") (serviceS ++ str ".Mod2")
  = Some (str "require(" ++ serviceS ++ str ".Mod22)").
Proof. vm_compute. reflexivity. Qed.

Lemma rewriteReference_absent (text oldPath : jsstring)
  (oldPathSuffix newServiceName newPathSuffix : jsstring)
  (oldServiceVariable newServiceVariable : option jsstring) :
  includes text oldPath = false ->
  match oldServiceVariable with
  | Some alias => includes text (alias ++ oldPathSuffix) = false
  | None => True
  end ->
  rewriteReference text oldPath oldPathSuffix newServiceName newPathSuffix
    oldServiceVariable newServiceVariable = text.
Proof.
  intros Hfull Halias. unfold rewriteReference.
  destruct oldServiceVariable as [alias|]; now rewrite ?Halias, Hfull.
Qed.

Lemma replaceCandidates_absent (calculatedNewPath text : jsstring)
  (candidates : list LongestVariable) :
  Forall (fun candidate => includes text (literalForm candidate) = false)
    candidates ->
  fold_left (replaceCandidate calculatedNewPath) candidates text = text.
Proof.
  induction 1 as [|candidate candidates Hc _ IH]; [reflexivity|].
  simpl. unfold replaceCandidate at 2. now rewrite Hc.
Qed.

Lemma applyNestedRefactoring_absent (text oldPath newPath : jsstring) :
  forallb (fun candidate => negb (includes text (literalForm candidate)))
    (snd (visitVariables (parseVariablesToAbsoluteMap text) oldPath newPath))
  = true ->
  applyNestedRefactoring text oldPath newPath = text.
Proof.
  intros H. unfold applyNestedRefactoring.
  destruct (parseVariablesToAbsoluteMap text) as [|entry index];
    [reflexivity|].
  destruct (visitVariables (entry :: index) oldPath newPath)
    as [best oldPaths].
  apply replaceCandidates_absent.
  apply (Permutation_Forall (sortByCount_perm oldPaths)).
  apply Forall_forall. intros candidate Hin.
  rewrite forallb_forall in H. apply H in Hin.
  now apply negb_true_iff in Hin.
Qed.

(** C1, amended: a second application with the same move returns the
    output of the first unchanged whenever the literal forms of the old
    path that a pass looks for are absent from that output: the old
    path itself, the old suffix behind the alias of the old anchor, and
    the candidate literals of the nested pass. *)
Theorem second_pass_is_noop_when_old_forms_absent
  (text oldPath newPath once : jsstring) :
  applyRefactorOnText text oldPath newPath = Some once ->
  oldFormsAbsent once oldPath newPath = true ->
  applyRefactorOnText once oldPath newPath = Some once.
Proof.
  unfold applyRefactorOnText, oldFormsAbsent.
  destruct (serviceRegex oldPath) as [[oldServiceName oldPathSuffix]|];
    [|reflexivity].
  destruct (serviceRegex newPath) as [[newServiceName newPathSuffix]|];
    [|reflexivity].
  destruct (regexPlain oldServiceName && regexPlain newServiceName);
    [|discriminate].
  intros _ H. apply andb_true_iff in H as [H Hnested].
  apply andb_true_iff in H as [Hfull Halias].
  apply negb_true_iff in Hfull.
  rewrite rewriteReference_absent.
  - now rewrite applyNestedRefactoring_absent.
  - exact Hfull.
  - destruct (execServiceDeclaration oldServiceName once); [|exact I].
    now apply negb_true_iff in Halias.
Qed.

Lemma second_pass_is_noop_when_old_forms_absent_witness :
  applyRefactorOnText
    (str "local SSS = " ++ serviceS ++ lf
     ++ str "local m = require(SSS.NewModule)" ++ lf)
    (serviceS ++ str ".OldModule") (serviceS ++ str ".NewModule")
  = Some (str "local SSS = " ++ serviceS ++ lf
          ++ str "local m = require(SSS.NewModule)" ++ lf).
Proof.
  apply (second_pass_is_noop_when_old_forms_absent aliasReference).
  - vm_compute. reflexivity.
  - vm_compute. reflexivity.
Defined.

End RepeatedPass.

(** *** Directories and their init files *)

Section DirectoryPaths.

Lemma dropWhile_none (f : ascii -> bool) (s : jsstring) :
  forallb (fun c => negb (f c)) s = true -> dropWhile f s = s.
Proof.
  destruct s as [|c s]; simpl; [reflexivity|].
  intros H. apply andb_true_iff in H as [Hc _].
  apply negb_true_iff in Hc. now rewrite Hc.
Qed.

Lemma dropWhile_head_stops (f : ascii -> bool) (a b : jsstring) :
  a <> [] -> forallb (fun c => negb (f c)) a = true ->
  dropWhile f (a ++ b) = a ++ b.
Proof.
  destruct a as [|c a]; [contradiction|]. simpl. intros _ H.
  apply andb_true_iff in H as [Hc _].
  apply negb_true_iff in Hc. now rewrite Hc.
Qed.

Lemma forallb_rev_eq (f : ascii -> bool) (s : jsstring) :
  forallb f (rev s) = forallb f s.
Proof.
  induction s as [|c s IH]; [reflexivity|].
  simpl. rewrite forallb_app, IH. simpl.
  rewrite andb_true_r. apply andb_comm.
Qed.

Lemma rev_nonempty (s : jsstring) : s <> [] -> rev s <> [].
Proof.
  intros H E. apply H. rewrite <- (rev_involutive s), E. reflexivity.
Qed.

(** The reversed path [x/f], [f] a name. *)
Lemma rev_path (x f : jsstring) :
  rev (x ++ str "/" ++ f) = rev f ++ "/" :: rev x.
Proof.
  rewrite rev_app_distr. simpl. now rewrite <- app_assoc.
Qed.

Lemma basename_file (x f : jsstring) :
  f <> [] -> noSlash f = true -> basename (x ++ str "/" ++ f) = f.
Proof.
  intros Hne Hf. unfold basename. rewrite rev_path.
  assert (Hr : forallb (fun c => negb (isSlash c)) (rev f) = true)
    by now rewrite forallb_rev_eq.
  rewrite dropWhile_head_stops by (try apply rev_nonempty; assumption).
  destruct (takeWhile_app_stop (fun c => negb (isSlash c)) (rev f) "/"
              (rev x) Hr eq_refl) as [-> _].
  apply rev_involutive.
Qed.

Lemma split_name (sep : ascii) (f : jsstring) :
  forallb (fun c => negb (Ascii.eqb c sep)) f = true -> split sep f = [f].
Proof.
  induction f as [|c f IH]; simpl; [reflexivity|].
  intros H. apply andb_true_iff in H as [Hc Hf].
  apply negb_true_iff in Hc. rewrite Hc. now rewrite IH.
Qed.

Lemma split_path (x f : jsstring) :
  noSlash f = true ->
  split "/" (x ++ str "/" ++ f) = split "/" x ++ [f].
Proof.
  intros Hf. induction x as [|c x IH].
  - simpl. now rewrite split_name.
  - simpl app. simpl split. simpl app in IH. rewrite IH.
    destruct (Ascii.eqb c "/"); [reflexivity|].
    destruct (split "/" x) as [|h t] eqn:E;
      [now apply split_nonempty in E|reflexivity].
Qed.

(** The directory of [x/f] has the parts of [x]. *)
Lemma dirname_file_parts (x f : jsstring) :
  f <> [] -> noSlash f = true ->
  filter keepPart (split "/" (dirname (x ++ str "/" ++ f)))
  = filter keepPart (split "/" x).
Proof.
  intros Hne Hf.
  assert (Hr : forallb (fun c => negb (isSlash c)) (rev f) = true)
    by now rewrite forallb_rev_eq.
  destruct x as [|c0 x].
  - simpl app. unfold dirname.
    rewrite (dropWhile_none isSlash) by exact Hr.
    assert (E : dropWhile (fun c => negb (isSlash c)) (rev f) = []).
    { generalize Hr. generalize (rev f) as l.
      induction l as [|c l IH]; simpl; [reflexivity|].
      intros H. apply andb_true_iff in H as [-> H]. now apply IH. }
    rewrite E. reflexivity.
  - change ((c0 :: x) ++ str "/" ++ f) with (c0 :: (x ++ str "/" ++ f)).
    unfold dirname. rewrite rev_path.
    rewrite dropWhile_head_stops by (try apply rev_nonempty; assumption).
    destruct (takeWhile_app_stop (fun c => negb (isSlash c)) (rev f) "/"
                (rev x) Hr eq_refl) as [_ ->].
    cbn [List.length]. rewrite length_rev.
    destruct (isSlash c0 && Nat.eqb (S (List.length x)) 1) eqn:E.
    + apply andb_true_iff in E as [Hc Hx].
      apply Ascii.eqb_eq in Hc. subst c0.
      destruct x; [reflexivity|discriminate].
    + change (c0 :: x ++ str "/" ++ f) with ((c0 :: x) ++ str "/" ++ f).
      change (S (List.length x)) with (List.length (c0 :: x)).
      rewrite firstn_app, Nat.sub_diag, firstn_all. simpl firstn.
      now rewrite app_nil_r.
Qed.

Lemma fallbackParts_file (x f : jsstring) :
  f <> [] -> noSlash f = true ->
  fallbackParts (dirname (x ++ str "/" ++ f)) = fallbackParts x.
Proof.
  intros Hne Hf. unfold fallbackParts. now rewrite dirname_file_parts.
Qed.

Lemma fallbackParts_below (parent name : jsstring) :
  keepPart name = true -> noSlash name = true ->
  fallbackParts parent <> [] ->
  fallbackParts (parent ++ str "/" ++ name) = fallbackParts parent ++ [name].
Proof.
  intros Hk Hn Hp. unfold fallbackParts in *.
  rewrite split_path by exact Hn.
  rewrite filter_app. simpl filter. rewrite Hk.
  destruct (filter keepPart (split "/" parent)) as [|first rest];
    [contradiction|].
  cbn [app]. destruct (eqs first (str "src")); [|reflexivity].
  destruct rest; [contradiction|reflexivity].
Qed.

Lemma appendParts_last (result : jsstring) (parts : list jsstring)
  (name : jsstring) :
  parts <> [] ->
  appendParts result (parts ++ [name])
  = appendName (appendParts result parts) name.
Proof.
  destruct parts as [|part parts]; [contradiction|]. intros _.
  simpl. now rewrite fold_left_app.
Qed.

End DirectoryPaths.

(** *** What [convertToRobloxPath] returns *)

Section ConvertedPaths.

(** C5, amended: a file of a directory whose module name starts with
    init (init.server.lua, init.server.luau) resolves to the Roblox path
    of that directory, with no module-name segment.  Without a project
    tree this is the string the bare path of the directory resolves to
    whenever the directory lies below the one that names the service
    (its parent has a part left once a leading src is dropped) and its
    own name is kept as a module name; the bare path of the service
    directory itself, src/ServerScriptService, resolves to another
    string. *)
Theorem init_file_resolves_to_directory
  (directory initFile : jsstring) (tree : option ProjectTreeNode) :
  noSlash initFile = true ->
  isInit (moduleNameOf initFile) = true ->
  let filePath := directory ++ str "/" ++ initFile in
  convertToRobloxPath filePath tree = directoryRobloxPath filePath tree
  /\ forall parent name,
       directory = parent ++ str "/" ++ name ->
       keepPart name = true -> noSlash name = true ->
       moduleNameOf name = name -> isInit name = false ->
       fallbackParts parent <> [] ->
       convertToRobloxPath filePath None = convertToRobloxPath directory None.
Proof.
  intros Hslash Hinit filePath.
  assert (Hne : initFile <> []) by (intros ->; discriminate).
  assert (Hdir : forall t,
             convertToRobloxPath filePath t = directoryRobloxPath filePath t).
  { intros t. rewrite convertToRobloxPath_directory. subst filePath.
    rewrite basename_file by assumption. now rewrite Hinit. }
  split; [apply Hdir|].
  intros parent name -> Hkeep Hname Hmodule Hnotinit Hparent.
  rewrite Hdir. unfold directoryRobloxPath, resolvedParts. subst filePath.
  rewrite fallbackParts_file by assumption.
  rewrite fallbackParts_below by assumption.
  rewrite appendParts_last by assumption.
  rewrite convertToRobloxPath_directory.
  rewrite basename_file
    by (try apply keepPart_nonempty; assumption).
  rewrite Hmodule, Hnotinit.
  unfold directoryRobloxPath, resolvedParts.
  rewrite fallbackParts_file
    by (try apply keepPart_nonempty; assumption).
  reflexivity.
Qed.

Lemma init_file_resolves_to_directory_witness :
  convertToRobloxPath (str "src/ServerScriptService/init.server.lua") None
  = getService (str "ServerScriptService")
  /\ convertToRobloxPath (str "src/ServerScriptService/init.server.luau") None
     = getService (str "ServerScriptService")
  /\ convertToRobloxPath
       (str "src/ServerScriptService/Folder/init.server.lua") None
     = convertToRobloxPath (str "src/ServerScriptService/Folder") None.
Proof.
  split; [|split].
  - exact (eq_trans
             (proj1 (init_file_resolves_to_directory
                       (str "src/ServerScriptService") (str "init.server.lua")
                       None eq_refl eq_refl))
             eq_refl).
  - exact (eq_trans
             (proj1 (init_file_resolves_to_directory
                       (str "src/ServerScriptService") (str "init.server.luau")
                       None eq_refl eq_refl))
             eq_refl).
  - refine (proj2 (init_file_resolves_to_directory
                     (str "src/ServerScriptService/Folder")
                     (str "init.server.lua") None eq_refl eq_refl)
              (str "src/ServerScriptService") (str "Folder")
              eq_refl eq_refl eq_refl eq_refl eq_refl _).
    discriminate.
Defined.

Lemma basename_incl (path : jsstring) : incl (basename path) path.
Proof.
  unfold basename. intros x Hx. apply in_rev in Hx.
  apply takeWhile_incl in Hx. apply dropWhile_incl in Hx.
  now apply in_rev in Hx.
Qed.

Lemma dirname_chars (path : jsstring) (x : ascii) :
  In x (dirname path) -> In x path \/ x = "." \/ x = "/".
Proof.
  unfold dirname. destruct path as [|c0 body].
  - intros [<-|[]]. right. now left.
  - destruct (dropWhile _ (dropWhile isSlash (rev body))) as [|u up].
    + destruct (isSlash c0); intros [<-|[]]; right; [now right|now left].
    + destruct (isSlash c0 && Nat.eqb (List.length (u :: up)) 1).
      * intros [<-|[<-|[]]]; right; now right.
      * intros H. left.
        rewrite <- (firstn_skipn (List.length (u :: up)) (c0 :: body)).
        apply in_or_app. now left.
Qed.

Lemma moduleNameOf_incl (filename : jsstring) :
  incl (moduleNameOf filename) filename.
Proof.
  assert (Hfirst : forall i (s : jsstring), incl (firstn i s) s).
  { intros i s x Hx. rewrite <- (firstn_skipn i s).
    apply in_or_app. now left. }
  unfold moduleNameOf, substringTo.
  destruct (lastIndexOf "." filename) as [i|]; [|apply incl_refl].
  destruct (_ || _); [|apply incl_refl].
  destruct (lastIndexOf "." (firstn i filename)) as [j|]; [|apply Hfirst].
  destruct (_ || _); [|apply Hfirst].
  intros x Hx. apply (Hfirst i). now apply (Hfirst j) in Hx.
Qed.

Lemma fallbackParts_chars (dir part : jsstring) :
  In part (fallbackParts dir) -> incl part dir.
Proof.
  unfold fallbackParts. intros H.
  apply (split_incl "/"). 
  assert (Hin : In part (filter keepPart (split "/" dir))).
  { destruct (filter keepPart (split "/" dir)) as [|first rest];
      [contradiction|].
    destruct (eqs first (str "src")); [now right|exact H]. }
  now apply filter_In in Hin.
Qed.

(** Parts of the directory of a clean path are clean. *)
Lemma fallbackParts_clean (f : ascii -> bool) (filePath part : jsstring) :
  f "." = true -> f "/" = true ->
  forallb f filePath = true ->
  In part (fallbackParts (dirname filePath)) ->
  forallb f part = true.
Proof.
  intros Hdot Hslash Hpath Hin. apply forallb_forall. intros x Hx.
  apply (fallbackParts_chars _ _ Hin) in Hx.
  apply dirname_chars in Hx as [Hx|[->| ->]]; try assumption.
  rewrite forallb_forall in Hpath. now apply Hpath.
Qed.

(** C4, amended: [convertToRobloxPath] returns a string of the anchor
    grammar when the containing directory resolves to at least one part
    (the matched tree path, or the directories left once empty and dot
    components and a leading src are dropped), the first part being
    non-empty and free of double quotes and no later part nor the
    module name holding a line terminator; the anchor is that first
    part.  Without a tree this is so for every path free of double
    quotes and line terminators whose directory has such a part, and
    the anchor is not empty.  The anchor of every string of the grammar
    it returns is non-empty. *)
Theorem converted_path_matches_grammar
  (filePath : jsstring) (tree : option ProjectTreeNode) :
  (forall anchor rest,
      resolvedParts filePath tree = anchor :: rest ->
      anchor <> [] -> noQuote anchor = true ->
      Forall (fun part => noLineTerminator part = true) rest ->
      noLineTerminator (moduleNameOf (basename filePath)) = true ->
      exists suffix,
        serviceRegex (convertToRobloxPath filePath tree)
        = Some (anchor, suffix))
  /\ (forall anchor rest,
        resolvedParts filePath None = anchor :: rest ->
        noQuote filePath = true -> noLineTerminator filePath = true ->
        anchor <> []
        /\ exists suffix,
             serviceRegex (convertToRobloxPath filePath None)
             = Some (anchor, suffix))
  /\ (forall anchor suffix,
        serviceRegex (convertToRobloxPath filePath tree)
        = Some (anchor, suffix) -> anchor <> []).
Proof.
  assert (General : forall t anchor rest,
    resolvedParts filePath t = anchor :: rest ->
    anchor <> [] -> noQuote anchor = true ->
    Forall (fun part => noLineTerminator part = true) rest ->
    noLineTerminator (moduleNameOf (basename filePath)) = true ->
    exists suffix,
      serviceRegex (convertToRobloxPath filePath t) = Some (anchor, suffix)).
  { intros t anchor rest Hparts Hne Hq Hrest Hmod.
    rewrite convertToRobloxPath_directory.
    unfold directoryRobloxPath. rewrite Hparts.
    unfold appendParts. rewrite appendService_game.
    destruct (appendNames_suffix rest (getService anchor) Hrest)
      as (added & -> & Hadded).
    destruct (isInit (moduleNameOf (basename filePath))).
    - exists added. now apply serviceRegex_getService.
    - destruct (appendName_suffix (getService anchor ++ added) _ Hmod)
        as (more & -> & Hmore).
      exists (added ++ more). rewrite <- app_assoc.
      apply serviceRegex_getService; try assumption.
      now rewrite noLineTerminator_app, Hadded, Hmore. }
  split; [apply General|split].
  - intros anchor rest Hparts Hq Hlt.
    assert (Hne : anchor <> []).
    { apply (fallbackParts_nonempty (dirname filePath)).
      unfold resolvedParts in Hparts. rewrite Hparts. now left. }
    split; [exact Hne|].
    apply (General None anchor rest Hparts Hne).
    + apply (fallbackParts_clean _ filePath); try reflexivity;
        [exact Hq|].
      unfold resolvedParts in Hparts. rewrite Hparts. now left.
    + apply Forall_forall. intros part Hpart.
      apply (fallbackParts_clean _ filePath); try reflexivity;
        [exact Hlt|].
      unfold resolvedParts in Hparts. rewrite Hparts. now right.
    + apply (noLineTerminator_incl _ filePath); [|exact Hlt].
      intros x Hx. apply moduleNameOf_incl in Hx.
      now apply basename_incl in Hx.
  - intros anchor suffix H. now apply serviceRegex_shape in H.
Qed.

Lemma converted_path_matches_grammar_witness :
  exists suffix,
    serviceRegex
      (convertToRobloxPath (str "src/ServerScriptService/My Folder/Mod.lua")
         None)
    = Some (str "ServerScriptService", suffix).
Proof.
  apply (proj1 (proj2 (converted_path_matches_grammar
                         (str "src/ServerScriptService/My Folder/Mod.lua")
                         None))
           (str "ServerScriptService") [str "My Folder"]);
    reflexivity.
Defined.

End ConvertedPaths.

(** *** Witnesses on the example files *)

Section Witnesses.

Example replacement_policy_on_alias_reference :
  exists newText,
    applyRefactorOnText aliasReference
      (serviceS ++ str ".OldModule") (serviceT ++ str ".NewModule")
    = Some (applyNestedRefactoring newText
              (serviceS ++ str ".OldModule") (serviceT ++ str ".NewModule"))
    /\ newText
       = replaceAll aliasReference (str "SSS.OldModule")
           (serviceT ++ str ".NewModule").
Proof.
  destruct (primary_pass_replacement_policy aliasReference
              (serviceS ++ str ".OldModule") (serviceT ++ str ".NewModule")
              (str "S") (str ".OldModule") (str "T") (str ".NewModule")
              eq_refl eq_refl eq_refl eq_refl)
    as (newText & Happly & Halias & _).
  exists newText. split; [exact Happly|].
  exact (Halias (str "SSS") eq_refl eq_refl).
Qed.

Example alias_is_kept :
  applyRefactorOnText aliasReference
    (serviceS ++ str ".OldModule") (serviceS ++ str ".NewModule")
  = Some (str "local SSS = " ++ serviceS ++ lf
          ++ str "local m = require(SSS.NewModule)" ++ lf).
Proof. vm_compute. reflexivity. Qed.

Example service_is_written_out :
  applyRefactorOnText aliasReference
    (serviceS ++ str ".OldModule") (serviceT ++ str ".NewModule")
  = Some (str "local SSS = " ++ serviceS ++ lf
          ++ str "local m = require(" ++ serviceT ++ str ".NewModule)" ++ lf).
Proof. vm_compute. reflexivity. Qed.

(** The declaration patterns end with the service access: a variable
    bound to a child of the service is matched too, and is then the
    alias the primary pass rewrites with. *)
Example child_declaration_is_matched :
  execServiceDeclaration (str "S")
    (str "local Utils = " ++ serviceS ++ str ".Utils") = Some (str "Utils")
  /\ applyRefactorOnText
       (str "local Utils = " ++ serviceS ++ str ".Utils" ++ lf
        ++ str "local m = require(" ++ serviceS ++ str ".Old)")
       (serviceS ++ str ".Old") (serviceS ++ str ".New")
     = Some (str "local Utils = " ++ serviceS ++ str ".Utils" ++ lf
             ++ str "local m = require(Utils.New)").
Proof. split; vm_compute; reflexivity. Qed.


Example alias_index_of_nested_reference :
  parseVariablesToAbsoluteMap nestedReference
  = [(str "SSS", serviceS); (str "Sub", serviceS ++ str ".sub.path")].
Proof. vm_compute. reflexivity. Qed.

End Witnesses.

(** *** Dollar signs in the new path *)

Section DollarPatterns.

(** C2 does not hold of the code when the new suffix holds a dollar
    pattern.  The file declares the alias SSS of the old anchor and
    refers to SSS.OldModule; the module is renamed to a$$b.  The claim
    promises every occurrence of SSS.OldModule replaced with SSS.a$$b,
    the old alias followed by the new suffix; the code hands that string
    to [replaceAll] as its replacement, where two dollar signs stand for
    one, and writes SSS.a$b. *)
Lemma primary_pass_expands_dollar_pattern :
  let oldPath := serviceS ++ str ".OldModule" in
  let newPath := serviceS ++ str ".a$$b" in
  let promised :=
    str "local SSS = " ++ serviceS ++ lf
    ++ str "local m = require(SSS.a$$b)" ++ lf in
  let written :=
    str "local SSS = " ++ serviceS ++ lf
    ++ str "local m = require(SSS.a$b)" ++ lf in
  serviceRegex newPath = Some (str "S", str ".a$$b")
  /\ execServiceDeclaration (str "S") aliasReference = Some (str "SSS")
  /\ Substituted (str "SSS.OldModule") (str "SSS" ++ str ".a$$b")
       aliasReference promised
  /\ applyRefactorOnText aliasReference oldPath newPath = Some written
  /\ written <> promised.
Proof.
  intros oldPath newPath promised written.
  split; [reflexivity|]. split; [reflexivity|]. split; [|split].
  - refine (substituted_first (str "SSS.OldModule") (str "SSS" ++ str ".a$$b")
              (str "local SSS = " ++ serviceS ++ lf
               ++ str "local m = require(")
              (str ")" ++ lf) (str ")" ++ lf) _ _).
    + vm_compute. reflexivity.
    + apply substituted_none. vm_compute. reflexivity.
  - vm_compute. reflexivity.
  - vm_compute. discriminate.
Qed.

(** C3 does not hold of the code when the rest of the new path holds a
    dollar pattern.  The alias Sub is bound to S.sub.path and the file
    refers to Sub.more.Old; the module is renamed to a$$b.  The best
    literal for the new path is Sub.more.a$$b, and the claim promises
    every occurrence of Sub.more.Old replaced with it; the code hands
    the literal to [replaceAll] as its replacement and writes
    Sub.more.a$b. *)
Lemma nested_pass_expands_dollar_pattern :
  let oldPath := serviceS ++ str ".sub.path.more.Old" in
  let newPath := serviceS ++ str ".sub.path.more.a$$b" in
  let promised :=
    str "local SSS = " ++ serviceS ++ lf
    ++ str "local Sub = SSS.sub.path" ++ lf
    ++ str "local m = require(Sub.more.a$$b)" ++ lf in
  let written :=
    str "local SSS = " ++ serviceS ++ lf
    ++ str "local Sub = SSS.sub.path" ++ lf
    ++ str "local m = require(Sub.more.a$b)" ++ lf in
  literalForm
    (fst (visitVariables (parseVariablesToAbsoluteMap nestedReference)
            oldPath newPath))
  = str "Sub.more.a$$b"
  /\ map literalForm
       (sortByCount
          (snd (visitVariables (parseVariablesToAbsoluteMap nestedReference)
                  oldPath newPath)))
     = [str "Sub.more.Old"; str "SSS.sub.path.more.Old"]
  /\ Substituted (str "Sub.more.Old") (str "Sub.more.a$$b")
       nestedReference promised
  /\ applyNestedRefactoring nestedReference oldPath newPath = written
  /\ written <> promised.
Proof.
  intros oldPath newPath promised written.
  split; [vm_compute; reflexivity|]. split; [vm_compute; reflexivity|].
  split; [|split].
  - refine (substituted_first (str "Sub.more.Old") (str "Sub.more.a$$b")
              (str "local SSS = " ++ serviceS ++ lf
               ++ str "local Sub = SSS.sub.path" ++ lf
               ++ str "local m = require(")
              (str ")" ++ lf) (str ")" ++ lf) _ _).
    + vm_compute. reflexivity.
    + apply substituted_none. vm_compute. reflexivity.
  - vm_compute. reflexivity.
  - vm_compute. discriminate.
Qed.

End DollarPatterns.

(* ================================================================= *)
(** ** Further properties *)

Import Extension ProjectFile Legacy SpecExtra ExtraExamples.

(** *** The search in the project tree *)

Section TreeSearch.

Lemma findPathInTree_object (props : list (jsstring * ProjectTreeNode))
  (targetPath : jsstring) (currentPath : list jsstring) :
  findPathInTree (NodeObject props) targetPath currentPath
  = if dollarPathIs props targetPath then Some currentPath
    else findEntries targetPath currentPath props.
Proof.
  cbn [findPathInTree]. destruct (dollarPathIs props targetPath);
    [reflexivity|].
  induction props as [|[key value] props IH]; [reflexivity|].
  cbn [findEntries]. rewrite <- IH.
  destruct (startsWith key (str "$")); [reflexivity|].
  destruct value; reflexivity.
Qed.

Lemma treeSize_entry (props : list (jsstring * ProjectTreeNode))
  (key : jsstring) (value : ProjectTreeNode) :
  In (key, value) props -> treeSize value < treeSize (NodeObject props).
Proof.
  cbn [treeSize]. induction props as [|[k v] props IH]; [intros []|].
  intros [[= -> ->]|H]; [lia|].
  specialize (IH H). lia.
Qed.

Lemma findEntries_found (targetPath : jsstring) (currentPath result : list jsstring)
  (entries : list (jsstring * ProjectTreeNode)) :
  findEntries targetPath currentPath entries = Some result ->
  exists key value,
    In (key, value) entries
    /\ startsWith key (str "$") = false
    /\ findPathInTree value targetPath (currentPath ++ [key]) = Some result.
Proof.
  induction entries as [|[key value] entries IH]; [discriminate|].
  cbn [findEntries].
  destruct (startsWith key (str "$")) eqn:Ek.
  - intros H. destruct (IH H) as (k & v & Hin & Hrest).
    exists k, v. split; [now right|exact Hrest].
  - assert (Hnext : findEntries targetPath currentPath entries = Some result ->
                    exists k v,
                      In (k, v) ((key, value) :: entries)
                      /\ startsWith k (str "$") = false
                      /\ findPathInTree v targetPath (currentPath ++ [k])
                         = Some result).
    { intros H. destruct (IH H) as (k & v & Hin & Hrest).
      exists k, v. split; [now right|exact Hrest]. }
    destruct value as [props| |]; try exact Hnext.
    destruct (findPathInTree (NodeObject props) targetPath
                (currentPath ++ [key])) as [r|] eqn:Ef; [|exact Hnext].
    intros [= <-]. exists key, (NodeObject props).
    split; [now left|]. split; [exact Ek|exact Ef].
Qed.

Lemma findEntries_none (targetPath : jsstring) (currentPath : list jsstring)
  (entries : list (jsstring * ProjectTreeNode)) :
  findEntries targetPath currentPath entries = None ->
  forall key props,
    In (key, NodeObject props) entries ->
    startsWith key (str "$") = false ->
    findPathInTree (NodeObject props) targetPath (currentPath ++ [key]) = None.
Proof.
  induction entries as [|[k v] entries IH]; [intros _ ? ? []|].
  cbn [findEntries]. intros H key props [[= -> ->]|Hin] Hkey.
  - rewrite Hkey in H.
    destruct (findPathInTree (NodeObject props) targetPath
                (currentPath ++ [key])); [discriminate|reflexivity].
  - apply IH; try assumption.
    destruct (startsWith k (str "$")); [exact H|].
    destruct v as [ps| |]; try exact H.
    destruct (findPathInTree (NodeObject ps) targetPath (currentPath ++ [k]));
      [discriminate|exact H].
Qed.

Lemma findPathInTree_sound_sized (n : nat) :
  forall tree, treeSize tree <= n ->
  forall targetPath currentPath result,
    findPathInTree tree targetPath currentPath = Some result ->
    exists keys node,
      result = currentPath ++ keys
      /\ Reaches tree keys node
      /\ declaresPath node targetPath.
Proof.
  induction n as [|n IH]; intros tree Hsize targetPath currentPath result H.
  - destruct tree; cbn [treeSize] in Hsize; lia.
  - destruct tree as [props| |]; try discriminate.
    rewrite findPathInTree_object in H.
    destruct (dollarPathIs props targetPath) eqn:Ed.
    + injection H as <-. exists [], (NodeObject props).
      rewrite app_nil_r. split; [reflexivity|].
      split; [constructor|]. now exists props.
    + apply findEntries_found in H as (key & value & Hin & Hkey & Hfind).
      pose proof (treeSize_entry props key value Hin) as Hlt.
      apply IH in Hfind as (keys & node & -> & Hreach & Hdecl); [|lia].
      exists (key :: keys), node. rewrite <- app_assoc.
      split; [reflexivity|]. split; [|exact Hdecl].
      now apply (reaches_child props key value).
Qed.

Lemma findPathInTree_complete_sized (n : nat) :
  forall tree, treeSize tree <= n ->
  forall targetPath currentPath,
    findPathInTree tree targetPath currentPath = None ->
    forall keys node,
      Reaches tree keys node -> ~ declaresPath node targetPath.
Proof.
  induction n as [|n IH]; intros tree Hsize targetPath currentPath H keys node
    Hreach.
  - destruct tree; cbn [treeSize] in Hsize; lia.
  - destruct tree as [props|s|].
    + rewrite findPathInTree_object in H.
      destruct (dollarPathIs props targetPath) eqn:Ed; [discriminate|].
      inversion Hreach as [|ps key value keys' node' Hin Hkey Hsub]; subst.
      * intros (ps & [= <-] & Hd). congruence.
      * pose proof (treeSize_entry props key value Hin) as Hlt.
        destruct value as [vprops|vs|].
        -- apply (IH (NodeObject vprops)) with (currentPath := currentPath ++ [key])
             (keys := keys'); [lia| |exact Hsub].
           now apply (findEntries_none targetPath currentPath props).
        -- inversion Hsub; subst. intros (ps & Hps & _). discriminate.
        -- inversion Hsub; subst. intros (ps & Hps & _). discriminate.
    + inversion Hreach; subst. intros (ps & Hps & _). discriminate.
    + inversion Hreach; subst. intros (ps & Hps & _). discriminate.
Qed.

(** X1: a path that [findPathInTree] returns is the current path
    followed by the keys that lead, through entries whose key does not
    start with a dollar sign, to an object node whose [$path] is the
    target. *)
Theorem findPathInTree_sound (tree : ProjectTreeNode) (targetPath : jsstring)
  (currentPath result : list jsstring) :
  findPathInTree tree targetPath currentPath = Some result ->
  exists keys node,
    result = currentPath ++ keys
    /\ Reaches tree keys node
    /\ declaresPath node targetPath.
Proof.
  apply (findPathInTree_sound_sized (treeSize tree)). apply Nat.le_refl.
Qed.

(** X2: when [findPathInTree] returns null, no node that can be reached
    from the tree through entries whose key does not start with a dollar
    sign has the target as its [$path]. *)
Theorem findPathInTree_complete (tree : ProjectTreeNode) (targetPath : jsstring)
  (currentPath : list jsstring) :
  findPathInTree tree targetPath currentPath = None ->
  forall keys node, Reaches tree keys node -> ~ declaresPath node targetPath.
Proof.
  apply (findPathInTree_complete_sized (treeSize tree)). apply Nat.le_refl.
Qed.

(** X3: the search over the prefixes of the directory returns the
    match of the longest prefix: the tree path found for the first [i]
    parts and the parts after them, no longer prefix having a match;
    it returns nothing only when no prefix has one, the empty one
    included. *)
Theorem searchTree_longest_prefix (tree : ProjectTreeNode)
  (dirParts : list jsstring) (n : nat) :
  match searchTree tree dirParts n with
  | Some (treePath, remainingPathParts) =>
      exists i,
        i <= n
        /\ findPathInTree tree (join (str "/") (firstn i dirParts)) []
           = Some treePath
        /\ remainingPathParts = skipn i dirParts
        /\ forall j, i < j <= n ->
             findPathInTree tree (join (str "/") (firstn j dirParts)) [] = None
  | None =>
      forall j, j <= n ->
        findPathInTree tree (join (str "/") (firstn j dirParts)) [] = None
  end.
Proof.
  induction n as [|n IH]; cbn [searchTree].
  - destruct (findPathInTree tree (join (str "/") (firstn 0 dirParts)) [])
      as [treePath|] eqn:E.
    + exists 0. repeat split; try assumption; try lia.
    + intros j Hj. replace j with 0 by lia. exact E.
  - destruct (findPathInTree tree (join (str "/") (firstn (S n) dirParts)) [])
      as [treePath|] eqn:E.
    + exists (S n). repeat split; try assumption; try lia.
    + destruct (searchTree tree dirParts n) as [[treePath rest]|].
      * destruct IH as (i & Hi & Hfind & Hrest & Hlonger).
        exists i. repeat split; try assumption; try lia.
        intros j Hj. destruct (Nat.eq_dec j (S n)) as [->|Hne]; [exact E|].
        apply Hlonger. lia.
      * intros j Hj. destruct (Nat.eq_dec j (S n)) as [->|Hne]; [exact E|].
        apply IH. lia.
Qed.

End TreeSearch.

(** *** Trees that change nothing *)

Section IneffectiveTrees.

Lemma searchTree_none (tree : ProjectTreeNode) (dirParts : list jsstring)
  (n : nat) :
  (forall j, findPathInTree tree (join (str "/") (firstn j dirParts)) [] = None) ->
  searchTree tree dirParts n = None.
Proof.
  intros H. induction n as [|n IH]; cbn [searchTree]; rewrite H;
    [reflexivity|exact IH].
Qed.

Lemma searchTree_step (tree : ProjectTreeNode) (dirParts : list jsstring)
  (n : nat) (treePath : list jsstring) :
  findPathInTree tree (join (str "/") (firstn n dirParts)) [] = Some treePath ->
  searchTree tree dirParts n = Some (treePath, skipn n dirParts).
Proof.
  intros H. destruct n; cbn [searchTree]; now rewrite H.
Qed.

(** X4: a project tree in which no node that the search can reach has a
    [$path] (a tree that is not an object among them) changes nothing:
    every path is converted as without a tree. *)
Theorem tree_without_paths_is_ignored (tree : ProjectTreeNode)
  (filePath : jsstring) :
  (forall keys node targetPath,
      Reaches tree keys node -> ~ declaresPath node targetPath) ->
  convertToRobloxPath filePath (Some tree) = convertToRobloxPath filePath None.
Proof.
  intros Hnone. unfold convertToRobloxPath.
  rewrite searchTree_none; [reflexivity|].
  intros j.
  destruct (findPathInTree tree (join (str "/") (firstn j _)) [])
    as [result|] eqn:E; [|reflexivity].
  apply (findPathInTree_sound_sized (treeSize tree) tree (Nat.le_refl _)) in E
    as (keys & node & _ & Hreach & Hdecl).
  exfalso. exact (Hnone keys node _ Hreach Hdecl).
Qed.

(** X5: when the root of the tree itself has the whole directory of the
    file as its [$path], the search stops there with an empty tree
    path, the tree is not used, and the path is converted as without a
    tree, whatever the nodes below declare. *)
Theorem root_match_is_discarded (props : list (jsstring * ProjectTreeNode))
  (filePath : jsstring) :
  dollarPathIs props
    (join (str "/")
       (filter keepPart
          (split "/" (backslashesToSlashes (dirname filePath))))) = true ->
  convertToRobloxPath filePath (Some (NodeObject props))
  = convertToRobloxPath filePath None.
Proof.
  intros H. unfold convertToRobloxPath.
  rewrite (searchTree_step _ _ _ []); [reflexivity|].
  rewrite firstn_all, findPathInTree_object. now rewrite H.
Qed.

End IneffectiveTrees.

(** *** The shape of the converted path *)

Section ConvertedShape.

Lemma appendName_extends (result name : jsstring) :
  exists added, appendName result name = result ++ added.
Proof.
  unfold appendName.
  destruct (startsWith (formatRobloxName name) (str "[")); eauto.
Qed.

Lemma appendNames_extend (parts : list jsstring) (result : jsstring) :
  exists added, fold_left appendName parts result = result ++ added.
Proof.
  revert result. induction parts as [|part parts IH]; intros result; simpl.
  - exists []. now rewrite app_nil_r.
  - destruct (appendName_extends result part) as (a1 & ->).
    destruct (IH (result ++ a1)) as (a2 & ->).
    exists (a1 ++ a2). now rewrite app_assoc.
Qed.

Lemma appendParts_extends (result : jsstring) (parts : list jsstring) :
  exists added, appendParts result parts = result ++ added.
Proof.
  destruct parts as [|part parts]; simpl.
  - exists []. now rewrite app_nil_r.
  - destruct (appendNames_extend parts (appendService result part))
      as (added & ->).
    unfold appendService. eexists. rewrite <- app_assoc. reflexivity.
Qed.

Lemma convertToRobloxPath_extends_game (filePath : jsstring)
  (tree : option ProjectTreeNode) :
  exists rest, convertToRobloxPath filePath tree = str "game" ++ rest.
Proof.
  rewrite convertToRobloxPath_directory. unfold directoryRobloxPath.
  destruct (appendParts_extends (str "game") (resolvedParts filePath tree))
    as (added & ->).
  destruct (isInit (moduleNameOf (basename filePath))); [eauto|].
  destruct (appendName_extends (str "game" ++ added)
              (moduleNameOf (basename filePath))) as (more & ->).
  exists (added ++ more). now rewrite app_assoc.
Qed.

Lemma convertToRobloxPath_truthy (filePath : jsstring)
  (tree : option ProjectTreeNode) :
  truthy (convertToRobloxPath filePath tree) = true.
Proof.
  destruct (convertToRobloxPath_extends_game filePath tree) as (rest & ->).
  reflexivity.
Qed.

(** X6: whatever the path and the tree, the string
    [convertToRobloxPath] returns begins with game; it is never
    empty. *)
Theorem converted_path_begins_with_game (filePath : jsstring)
  (tree : option ProjectTreeNode) :
  (exists rest, convertToRobloxPath filePath tree = str "game" ++ rest)
  /\ truthy (convertToRobloxPath filePath tree) = true.
Proof.
  split;
    [apply convertToRobloxPath_extends_game|apply convertToRobloxPath_truthy].
Qed.

End ConvertedShape.

(** *** Module names *)

Section ModuleNames.

Lemma lastIndexOf_noDot (s : jsstring) :
  noDot s = true -> lastIndexOf "." s = None.
Proof.
  induction s as [|c s IH]; [reflexivity|]. simpl.
  intros H. apply andb_true_iff in H as [Hc Hs].
  rewrite (IH Hs). apply negb_true_iff in Hc. now rewrite Hc.
Qed.

Lemma lastIndexOf_last_dot (a b : jsstring) :
  noDot b = true -> lastIndexOf "." (a ++ str "." ++ b) = Some (List.length a).
Proof.
  intros Hb. induction a as [|c a IH].
  - simpl. now rewrite lastIndexOf_noDot.
  - simpl app. cbn [lastIndexOf]. simpl app in IH. now rewrite IH.
Qed.

Lemma substringFrom_after_dot (a b : jsstring) :
  substringFrom (List.length a + 1) (a ++ str "." ++ b) = b.
Proof.
  unfold substringFrom. rewrite skipn_app.
  replace (List.length a + 1 - List.length a) with 1 by lia.
  rewrite skipn_all2 by lia. reflexivity.
Qed.

Lemma substringTo_before_dot (a b : jsstring) :
  substringTo (List.length a) (a ++ str "." ++ b) = a.
Proof.
  unfold substringTo. rewrite firstn_app, Nat.sub_diag, firstn_all.
  simpl. apply app_nil_r.
Qed.

Lemma lower_letter_is_plain (c : ascii) :
  isLower (lowerChar c) = true ->
  negb (Ascii.eqb c ".") = true
  /\ (negb (Ascii.eqb c "/") && negb (Ascii.eqb c "\")) = true.
Proof.
  destruct c as [[] [] [] [] [] [] [] []]; vm_compute; intros H;
    try discriminate; split; reflexivity.
Qed.

Lemma lower_letters_are_plain (s lit : jsstring) :
  toLowerCase s = lit -> forallb isLower lit = true ->
  noDot s = true /\ isFileName s = true.
Proof.
  intros <-. unfold toLowerCase, noDot, isFileName.
  induction s as [|c s IH]; [now split|].
  simpl. intros H. apply andb_true_iff in H as [Hc Hs].
  destruct (lower_letter_is_plain c Hc) as [-> ->].
  now apply IH.
Qed.

Lemma isLuaExtension_plain (ext : jsstring) :
  isLuaExtension ext = true -> noDot ext = true /\ isFileName ext = true.
Proof.
  unfold isLuaExtension. intros H.
  apply orb_true_iff in H as [H|H]; apply eqs_eq in H;
    now apply (lower_letters_are_plain ext _ H).
Qed.

Lemma isScriptTag_plain (tag : jsstring) :
  isScriptTag tag = true -> noDot tag = true /\ isFileName tag = true.
Proof.
  unfold isScriptTag. intros H.
  apply orb_true_iff in H as [H|H]; [apply orb_true_iff in H as [H|H]|];
    apply eqs_eq in H; now apply (lower_letters_are_plain tag _ H).
Qed.

(** X7: what [moduleNameOf] makes of a file name [name.ext].  With a
    Lua extension in any letter case the extension goes, and so does
    one script tag before it (server, client or shared, in any letter
    case), whatever precedes the tag; a name without a dot is kept as
    it is.  With any other extension the file name is kept whole, its
    extension included. *)
Theorem moduleNameOf_extension (name ext : jsstring) :
  noDot ext = true ->
  if isLuaExtension ext then
    (noDot name = true -> moduleNameOf (name ++ str "." ++ ext) = name)
    /\ (forall base tag,
          isScriptTag tag = true -> name = base ++ str "." ++ tag ->
          moduleNameOf (name ++ str "." ++ ext) = base)
  else moduleNameOf (name ++ str "." ++ ext) = name ++ str "." ++ ext.
Proof.
  intros Hext. unfold moduleNameOf.
  rewrite lastIndexOf_last_dot by exact Hext.
  rewrite substringFrom_after_dot, substringTo_before_dot.
  unfold isLuaExtension.
  destruct (eqs (toLowerCase ext) (str "lua")
            || eqs (toLowerCase ext) (str "luau")); [|reflexivity].
  split.
  - intros Hname. now rewrite lastIndexOf_noDot.
  - intros base tag Htag ->.
    destruct (isScriptTag_plain tag Htag) as [Hdot _].
    rewrite lastIndexOf_last_dot by exact Hdot.
    rewrite substringFrom_after_dot, substringTo_before_dot.
    unfold isScriptTag in Htag. now rewrite Htag.
Qed.

End ModuleNames.

(** *** Renames that are no move *)

Section NoMove.







End NoMove.

(** *** The moves of a batch, file by file *)

Section BatchLoop.

(** X9: in the loop over the moves of a file the dirty flag, once set,
    stays set, and when it is not set at the end the text is the one
    the loop started from: a file whose text some move changed is
    always flagged. *)
Theorem applyMoves_flag (moves : list FileMovement) :
  forall text isFileDirty finalText finalDirty,
    applyMoves moves text isFileDirty = Some (finalText, finalDirty) ->
    (isFileDirty = true -> finalDirty = true)
    /\ (finalDirty = false -> finalText = text).
Proof.
  induction moves as [|move moves IH]; intros text dirty finalText finalDirty.
  - simpl. intros [= -> ->]. now split.
  - cbn [applyMoves].
    destruct (applyRefactorOnText text (oldPath move) (newPath move))
      as [resultText|]; [|discriminate].
    destruct (eqs resultText text) eqn:E; cbn [negb].
    + apply IH.
    + intros H. apply IH in H as [Hset _]. specialize (Hset eq_refl).
      split; [trivial|]. intros Hfalse. congruence.
Qed.

(** X10: the moves of a batch are applied in sequence: the loop over
    two lists of moves, one after the other, is the loop over the
    second list started from the text and the flag the first one
    ends with. *)
Theorem applyMoves_app (first second : list FileMovement) :
  forall text isFileDirty,
    applyMoves (first ++ second) text isFileDirty
    = match applyMoves first text isFileDirty with
      | Some (middleText, middleDirty) =>
          applyMoves second middleText middleDirty
      | None => None
      end.
Proof.
  induction first as [|move first IH]; intros text dirty; [reflexivity|].
  cbn [app applyMoves].
  destruct (applyRefactorOnText text (oldPath move) (newPath move))
    as [resultText|]; [|reflexivity].
  destruct (negb (eqs resultText text)); apply IH.
Qed.

Lemma Staged_app (moves : list FileMovement)
  (ignores : jsstring -> Completion bool) (processed : list SourceFile)
  (edits : list (jsstring * jsstring)) :
  Staged moves ignores processed edits ->
  forall file,
    (ignores (relativePathPosix file) = Normal true ->
     Staged moves ignores (processed ++ [file]) edits)
    /\ (forall originalText currentText isFileDirty,
          ignores (relativePathPosix file) = Normal false ->
          openTextDocument file = Normal originalText ->
          applyMoves moves originalText false
          = Some (currentText, isFileDirty) ->
          Staged moves ignores (processed ++ [file])
            (if isFileDirty
             then edits ++ [(relativePathPosix file, currentText)]
             else edits)).
Proof.
  induction 1 as [|f fs es Hi _ IH|f fs es o c Hi Ho Ha _ IH
                  |f fs es o c Hi Ho Ha _ IH]; intros file.
  - split.
    + intros Hig. apply staged_ignored; [exact Hig|constructor].
    + intros o c [|] Hig Hopen Hmoves; cbn [app].
      * eapply staged_changed; eauto. constructor.
      * eapply staged_unchanged; eauto. constructor.
  - destruct (IH file) as [IH1 IH2]. split.
    + intros Hig. cbn [app]. apply staged_ignored; [exact Hi|now apply IH1].
    + intros o c d Hig Hopen Hmoves. cbn [app].
      apply staged_ignored; [exact Hi|]. now apply (IH2 o).
  - destruct (IH file) as [IH1 IH2]. split.
    + intros Hig. cbn [app]. eapply staged_unchanged; eauto.
    + intros o' c' d Hig Hopen Hmoves. cbn [app].
      eapply staged_unchanged; eauto.
  - destruct (IH file) as [IH1 IH2]. split.
    + intros Hig. cbn [app]. eapply staged_changed; eauto.
    + intros o' c' d Hig Hopen Hmoves.
      specialize (IH2 o' c' d Hig Hopen Hmoves).
      destruct d; cbn [app]; eapply staged_changed; eauto.
Qed.

Lemma Staged_length (moves : list FileMovement)
  (ignores : jsstring -> Completion bool) (processed : list SourceFile)
  (edits : list (jsstring * jsstring)) :
  Staged moves ignores processed edits ->
  List.length edits <= List.length processed.
Proof. induction 1; simpl; lia. Qed.

Lemma performBatchRefactoring_from (moves : list FileMovement)
  (ignores : jsstring -> Completion bool) (files : list SourceFile) :
  forall done edit fileCount edits outcome,
    Staged moves ignores done edit ->
    fileCount = List.length edit ->
    performBatchRefactoring moves ignores files edit fileCount
    = Some (edits, outcome) ->
    exists processed rest,
      done ++ files = processed ++ rest
      /\ Staged moves ignores processed edits
      /\ match outcome with
         | Normal count => rest = [] /\ count = List.length edits
         | Thrown =>
             exists file rest', rest = file :: rest' /\ throwsAt ignores file
         end.
Proof.
  induction files as [|file files IH];
    intros done edit fileCount edits outcome Hdone Hcount;
    cbn [performBatchRefactoring].
  - intros [= <- <-]. exists done, []. now repeat split.
  - assert (Hnext : forall edit',
      Staged moves ignores (done ++ [file]) edit' ->
      performBatchRefactoring moves ignores files edit' (List.length edit')
      = Some (edits, outcome) ->
      exists processed rest,
        done ++ file :: files = processed ++ rest
        /\ Staged moves ignores processed edits
        /\ match outcome with
           | Normal count => rest = [] /\ count = List.length edits
           | Thrown =>
               exists f rest', rest = f :: rest' /\ throwsAt ignores f
           end).
    { intros edit' Hstaged H.
      destruct (IH (done ++ [file]) edit' (List.length edit') edits outcome
                  Hstaged eq_refl H) as (processed & rest & Hsplit & Hrest).
      exists processed, rest. rewrite <- app_assoc in Hsplit.
      split; [exact Hsplit|exact Hrest]. }
    subst fileCount.
    destruct (Staged_app moves ignores done edit Hdone file) as [Hig Hopen].
    destruct (ignores (relativePathPosix file)) as [[|]|] eqn:Ei.
    + apply Hnext. now apply Hig.
    + destruct (openTextDocument file) as [originalText|] eqn:Eo.
      * destruct (applyMoves moves originalText false)
          as [[currentText isFileDirty]|] eqn:Ea; [|discriminate].
        specialize (Hopen originalText currentText isFileDirty
                      eq_refl eq_refl Ea).
        destruct isFileDirty.
        -- replace (S (List.length edit))
             with (List.length
                     (edit ++ [(relativePathPosix file, currentText)]))
             by (rewrite length_app; simpl; lia).
           now apply Hnext.
        -- now apply Hnext.
      * intros [= <- <-]. exists done, (file :: files).
        split; [reflexivity|]. split; [exact Hdone|].
        exists file, files. split; [reflexivity|]. right. now split.
    + intros [= <- <-]. exists done, (file :: files).
      split; [reflexivity|]. split; [exact Hdone|].
      exists file, files. split; [reflexivity|]. now left.
Qed.

(** X11: the edits [performBatchRefactoring] stages and how it ends.
    The files are gone through in their order up to the first one at
    which the ignore test or the opening of the document throws; there
    the function is rejected, with the edits of the files before it
    staged.  When no file throws all files are gone through and the
    function returns the number of edits.  The edits staged are, in the
    order of the files gone through, one for each file that the ignore
    list does not exclude and whose text the moves changed, holding the
    text the loop over the moves ends with, and none for any other
    file. *)
Theorem performBatchRefactoring_edits (moves : list FileMovement)
  (ignores : jsstring -> Completion bool) (files : list SourceFile)
  (edits : list (jsstring * jsstring)) (outcome : Completion nat) :
  performBatchRefactoring moves ignores files [] 0 = Some (edits, outcome) ->
  exists processed rest,
    files = processed ++ rest
    /\ Staged moves ignores processed edits
    /\ match outcome with
       | Normal fileCount => rest = [] /\ fileCount = List.length edits
       | Thrown =>
           exists file rest', rest = file :: rest' /\ throwsAt ignores file
       end.
Proof.
  intros H.
  exact (performBatchRefactoring_from moves ignores files [] [] 0 edits outcome
           (staged_none moves ignores) eq_refl H).
Qed.

End BatchLoop.

(** *** The project file *)

Section ProjectFiles.

Lemma find_first {A : Type} (f : A -> bool) (before : list A) (x : A)
  (after : list A) :
  forallb (fun y => negb (f y)) before = true -> f x = true ->
  find f (before ++ x :: after) = Some x.
Proof.
  intros Hb Hx. induction before as [|y before IH]; simpl.
  - now rewrite Hx.
  - simpl in Hb. apply andb_true_iff in Hb as [Hy Hb].
    apply negb_true_iff in Hy. rewrite Hy. now apply IH.
Qed.

(** X12: only the first file of the listing whose name ends with
    .project.json is read.  Its tree is the project tree; when it
    cannot be read or parsed, or has no tree, there is no project tree
    and paths are converted as without one, whatever project files
    follow in the listing. *)
Theorem first_project_file_decides (workspaceFolder : Workspace)
  (before : list jsstring) (file : jsstring) (after : list jsstring) :
  readdir workspaceFolder = Normal (before ++ file :: after) ->
  forallb (fun name => negb (endsWith name (str ".project.json"))) before
  = true ->
  endsWith file (str ".project.json") = true ->
  (forall tree,
      readTree workspaceFolder file = Normal (Some tree) ->
      getProjectJson workspaceFolder = Some tree)
  /\ ((forall tree, readTree workspaceFolder file <> Normal (Some tree)) ->
      getProjectJson workspaceFolder = None
      /\ forall filePath,
           convertToRobloxPath filePath (projectTree (Some workspaceFolder))
           = convertToRobloxPath filePath None).
Proof.
  intros Hdir Hbefore Hfile.
  assert (E : getProjectJson workspaceFolder
              = match readTree workspaceFolder file with
                | Normal (Some tree) => Some tree
                | _ => None
                end).
  { unfold getProjectJson. rewrite Hdir.
    rewrite (find_first _ before file after Hbefore Hfile).
    now destruct (readTree workspaceFolder file) as [[tree|]|]. }
  split.
  - intros tree Htree. now rewrite E, Htree.
  - intros Hnone.
    assert (E' : getProjectJson workspaceFolder = None).
    { rewrite E. destruct (readTree workspaceFolder file) as [[tree|]|];
        try reflexivity.
      now destruct (Hnone tree). }
    split; [exact E'|]. intros filePath. cbn [projectTree]. now rewrite E'.
Qed.

End ProjectFiles.

(** *** The keys of the alias index *)

Section AliasKeys.

Lemma identifierAssigned_identifier (s name rest : jsstring) :
  identifierAssigned s = Some (name, rest) -> isIdentifier name = true.
Proof.
  unfold identifierAssigned.
  destruct s as [|c s']; [discriminate|].
  destruct (isSpace c); [|discriminate].
  destruct (dropWhile isSpace (c :: s')) as [|i afterStart]; [discriminate|].
  destruct (isIdentStart i) eqn:Ei; [|discriminate].
  destruct (dropWhile isSpace (dropWhile isWord afterStart)) as [|e afterEquals];
    [discriminate|].
  destruct (Ascii.eqb e "="); [|discriminate].
  intros [= <- _]. cbn [isIdentifier]. rewrite Ei. apply takeWhile_all.
Qed.

Lemma assignRegex_identifier (line name rawValue : jsstring) :
  assignRegex line = Some (name, rawValue) -> isIdentifier name = true.
Proof.
  unfold assignRegex.
  destruct (stripPrefix (str "local") (dropWhile isSpace line))
    as [afterLocal|]; [|discriminate].
  destruct (identifierAssigned afterLocal) as [[varName afterEquals]|] eqn:Ei;
    [|discriminate].
  destruct (assignedValue afterEquals); [|discriminate].
  intros [= <- _]. now apply identifierAssigned_identifier in Ei.
Qed.

Lemma parseLine_cases (index : JsMap) (line : jsstring) :
  parseLine index line = index
  \/ exists name rawValue value,
       assignRegex line = Some (name, rawValue)
       /\ parseLine index line = mapSet name value index.
Proof.
  unfold parseLine.
  destruct (assignRegex line) as [[varName rawValue]|]; [|now left].
  destruct (serviceRegex (cleanup rawValue)).
  - right. now exists varName, rawValue, (cleanup rawValue).
  - destruct (mapGet (hd [] (split "." (cleanup rawValue))) index)
      as [absoluteBasePath|]; [|now left].
    right. eexists varName, rawValue, _. split; reflexivity.
Qed.

Lemma mapSet_key_in (k v k0 : jsstring) (m : JsMap) :
  In k0 (map fst (mapSet k v m)) -> k0 = k \/ In k0 (map fst m).
Proof.
  intros H. apply in_map_iff in H as [[k1 v1] [<- H]].
  apply mapSet_in in H as [[= -> _]|H]; [now left|].
  right. now apply (in_map fst) in H.
Qed.

Lemma mapSet_NoDup (k v : jsstring) (m : JsMap) :
  NoDup (map fst m) -> NoDup (map fst (mapSet k v m)).
Proof.
  induction m as [|[k' v'] m IH]; simpl; intros H.
  - constructor; [intros []|constructor].
  - inversion H as [|? ? Hnot Hrest]; subst.
    destruct (eqs k' k) eqn:E.
    + apply eqs_eq in E. subst k'. simpl. now constructor.
    + apply eqs_neq in E. simpl. constructor; [|now apply IH].
      intros Hin. apply mapSet_key_in in Hin as [Hin|Hin];
        [now apply E|now apply Hnot].
Qed.

Lemma mapGet_NoDup (k v : jsstring) (m : JsMap) :
  NoDup (map fst m) -> In (k, v) m -> mapGet k m = Some v.
Proof.
  induction m as [|[k' v'] m IH]; simpl; intros Hnd Hin; [destruct Hin|].
  inversion Hnd as [|? ? Hnot Hrest]; subst.
  destruct Hin as [[= -> ->]|Hin].
  - now rewrite eqs_refl.
  - destruct (eqs k' k) eqn:E.
    + apply eqs_eq in E. subst k'. exfalso. apply Hnot.
      now apply (in_map fst) in Hin.
    + now apply IH.
Qed.

Lemma fold_parseLine_keys (lines : list jsstring) :
  NoDup (map fst (fold_left parseLine lines []))
  /\ forall name value,
       In (name, value) (fold_left parseLine lines []) ->
       exists line rawValue,
         In line lines /\ assignRegex line = Some (name, rawValue).
Proof.
  induction lines as [|line lines [IHn IHd]] using rev_ind.
  - split; [constructor|intros ? ? []].
  - rewrite fold_left_app. cbn [fold_left].
    destruct (parseLine_cases (fold_left parseLine lines []) line)
      as [->|(name & rawValue & value & Ea & ->)].
    + split; [exact IHn|]. intros n v Hin.
      destruct (IHd n v Hin) as (l & r & Hl & Hr).
      exists l, r. split; [apply in_or_app; now left|exact Hr].
    + split; [now apply mapSet_NoDup|]. intros n v Hin.
      apply mapSet_in in Hin as [[= -> ->]|Hin].
      * exists line, rawValue. split; [apply in_or_app; right; now left|exact Ea].
      * destruct (IHd n v Hin) as (l & r & Hl & Hr).
        exists l, r. split; [apply in_or_app; now left|exact Hr].
Qed.

(** X13: the keys of the alias index.  No name is entered twice, so
    an entry is what a lookup of its name gives; every name is an
    identifier, the one a line of the text declares with local. *)
Theorem alias_index_keys (text : jsstring) :
  NoDup (map fst (parseVariablesToAbsoluteMap text))
  /\ forall name value,
       In (name, value) (parseVariablesToAbsoluteMap text) ->
       isIdentifier name = true
       /\ mapGet name (parseVariablesToAbsoluteMap text) = Some value
       /\ exists line rawValue,
            In line (splitLines text)
            /\ assignRegex line = Some (name, rawValue).
Proof.
  unfold parseVariablesToAbsoluteMap.
  destruct (fold_parseLine_keys (splitLines text)) as [Hn Hd].
  split; [exact Hn|]. intros name value Hin.
  destruct (Hd name value Hin) as (line & rawValue & Hl & Ha).
  split; [now apply assignRegex_identifier in Ha|].
  split; [now apply mapGet_NoDup|].
  now exists line, rawValue.
Qed.

End AliasKeys.

(** *** Texts without declarations *)

Section NoDeclarations.

Lemma includes_infix (s p : jsstring) :
  includes s p = true -> exists a b, s = a ++ p ++ b.
Proof.
  induction s as [|c s IH]; rewrite includes_unfold; intros H;
    apply orb_true_iff in H as [H|H].
  - apply startsWith_prefix in H as [r ->]. now exists [], r.
  - discriminate.
  - apply startsWith_prefix in H as [r ->]. now exists [], r.
  - destruct (IH H) as (a & b & ->). now exists (c :: a), b.
Qed.

Lemma includes_within (a s b p : jsstring) :
  includes (a ++ s ++ b) p = false -> includes s p = false.
Proof.
  intros H. destruct (includes s p) eqn:E; [|reflexivity].
  apply includes_infix in E as (a' & b' & ->).
  rewrite <- H. symmetry.
  replace (a ++ (a' ++ p ++ b') ++ b) with ((a ++ a') ++ p ++ (b' ++ b))
    by now rewrite <- !app_assoc.
  apply includes_occurrence.
Qed.

Lemma splitLines_lines (n : nat) :
  forall text, List.length text <= n ->
    (exists line lines rest, splitLines text = line :: lines
                             /\ text = line ++ rest)
    /\ forall line, In line (splitLines text) ->
         exists before after, text = before ++ line ++ after.
Proof.
  induction n as [|n IH]; intros text Hlen.
  - destruct text; [|simpl in Hlen; lia]. simpl. split.
    + now exists [], [], [].
    + intros line [<-|[]]. now exists [], [].
  - destruct text as [|c s']; [apply IH; simpl; lia|].
    simpl in Hlen.
    assert (Hcons :
      (exists line lines rest,
          match splitLines s' with
          | h :: t => (c :: h) :: t
          | [] => [[c]]
          end = line :: lines /\ c :: s' = line ++ rest)
      /\ forall line,
           In line match splitLines s' with
                   | h :: t => (c :: h) :: t
                   | [] => [[c]]
                   end ->
           exists before after, c :: s' = before ++ line ++ after).
    { destruct (IH s' ltac:(lia)) as [(h & t & rest & -> & Hs) Hin].
      split.
      - exists (c :: h), t, rest. split; [reflexivity|]. simpl. now f_equal.
      - intros line [<-|Hl].
        + exists [], rest. simpl. now f_equal.
        + destruct (Hin line (or_intror Hl)) as (before & after & E).
          exists (c :: before), after. simpl. now f_equal. }
    cbn [splitLines].
    destruct (code c =? 10)%N.
    { split.
      - now exists [], (splitLines s'), (c :: s').
      - intros line [<-|Hl]; [now exists [], (c :: s')|].
        destruct (proj2 (IH s' ltac:(lia)) line Hl) as (before & after & E).
        exists (c :: before), after. simpl. now f_equal. }
    destruct (code c =? 13)%N; [|exact Hcons].
    destruct s' as [|d s'']; [exact Hcons|].
    destruct (code d =? 10)%N; [|exact Hcons].
    split.
    + now exists [], (splitLines s''), (c :: d :: s'').
    + intros line [<-|Hl]; [now exists [], (c :: d :: s'')|].
      simpl in Hlen.
      destruct (proj2 (IH s'' ltac:(lia)) line Hl) as (before & after & E).
      exists (c :: d :: before), after. simpl. now do 2 f_equal.
Qed.

Lemma assignRegex_local (line name rawValue : jsstring) :
  assignRegex line = Some (name, rawValue) ->
  includes line (str "local") = true.
Proof.
  unfold assignRegex.
  destruct (stripPrefix (str "local") (dropWhile isSpace line))
    as [afterLocal|] eqn:E; [|discriminate].
  intros _. apply stripPrefix_Some in E.
  rewrite <- (takeWhile_dropWhile isSpace line), E.
  apply includes_occurrence.
Qed.

Lemma fold_parseLine_none (lines : list jsstring) (index : JsMap) :
  (forall line, In line lines -> assignRegex line = None) ->
  fold_left parseLine lines index = index.
Proof.
  revert index. induction lines as [|line lines IH]; intros index H;
    [reflexivity|].
  cbn [fold_left]. unfold parseLine at 2.
  rewrite (H line (or_introl eq_refl)).
  apply IH. intros l Hl. apply H. now right.
Qed.

Lemma parseVariablesToAbsoluteMap_no_local (text : jsstring) :
  includes text (str "local") = false ->
  parseVariablesToAbsoluteMap text = [].
Proof.
  intros H. unfold parseVariablesToAbsoluteMap. apply fold_parseLine_none.
  intros line Hl.
  destruct (proj2 (splitLines_lines (List.length text) text (le_n _)) line Hl)
    as (before & after & Et).
  rewrite Et in H. apply includes_within in H.
  destruct (assignRegex line) as [[name rawValue]|] eqn:Ea; [|reflexivity].
  apply assignRegex_local in Ea. congruence.
Qed.

Lemma applyNestedRefactoring_no_local (text oldPath newPath : jsstring) :
  includes text (str "local") = false ->
  applyNestedRefactoring text oldPath newPath = text.
Proof.
  intros H. unfold applyNestedRefactoring.
  now rewrite parseVariablesToAbsoluteMap_no_local.
Qed.

(** X14: a text in which the word local does not occur declares no
    alias: its alias index is empty and the nested pass returns it
    unchanged, whatever the move. *)
Theorem text_without_local_has_no_aliases (text : jsstring) :
  includes text (str "local") = false ->
  parseVariablesToAbsoluteMap text = []
  /\ forall oldPath newPath,
       applyNestedRefactoring text oldPath newPath = text.
Proof.
  intros H. split.
  - now apply parseVariablesToAbsoluteMap_no_local.
  - intros oldPath newPath. now apply applyNestedRefactoring_no_local.
Qed.

Lemma execServiceDeclaration_local (serviceName text alias : jsstring) :
  execServiceDeclaration serviceName text = Some alias ->
  includes text (str "local") = true.
Proof.
  induction text as [|c text IH]; cbn [execServiceDeclaration].
  - rewrite serviceDeclarationAt_nil. discriminate.
  - destruct (serviceDeclarationAt serviceName (c :: text)) as [name|] eqn:E.
    + intros _. unfold serviceDeclarationAt in E.
      destruct (stripPrefix (str "local") (c :: text)) as [afterLocal|] eqn:Es;
        [|discriminate].
      apply stripPrefix_Some in Es. rewrite Es.
      apply (includes_occurrence [] (str "local") afterLocal).
    + intros H. rewrite includes_cons, (IH H). apply orb_true_r.
Qed.

Lemma applyRefactorOnText_unreferenced (text oldPath newPath : jsstring) :
  includes text (str "local") = false ->
  includes text oldPath = false ->
  applyRefactorOnText text oldPath newPath = None
  \/ applyRefactorOnText text oldPath newPath = Some text.
Proof.
  intros Hlocal Hold. unfold applyRefactorOnText.
  destruct (serviceRegex oldPath) as [[oldServiceName oldPathSuffix]|];
    [|now right].
  destruct (serviceRegex newPath) as [[newServiceName newPathSuffix]|];
    [|now right].
  destruct (regexPlain oldServiceName && regexPlain newServiceName);
    [right|now left].
  destruct (execServiceDeclaration oldServiceName text) as [alias|] eqn:E.
  { apply execServiceDeclaration_local in E. congruence. }
  cbn [rewriteReference]. rewrite Hold.
  now rewrite applyNestedRefactoring_no_local.
Qed.

(** X20: a file that holds neither the word local nor the old path of
    any move is left as it is: when the loop over the moves ends, the
    text is the original one and the file is not flagged, so no edit is
    staged for it.  The moves are taken within what [applyRefactorOnText]
    is modelled for: service names without a syntax character of
    regular expressions. *)
Theorem unreferenced_file_is_not_edited (moves : list FileMovement)
  (text : jsstring) :
  includes text (str "local") = false ->
  (forall move, In move moves -> includes text (oldPath move) = false) ->
  (forall move, In move moves ->
     applyRefactorOnText text (oldPath move) (newPath move) <> None) ->
  applyMoves moves text false = Some (text, false).
Proof.
  intros Hlocal. induction moves as [|move moves IH]; intros Hold Hin;
    cbn [applyMoves]; [reflexivity|].
  destruct (applyRefactorOnText_unreferenced text (oldPath move) (newPath move)
              Hlocal (Hold move (or_introl eq_refl))) as [E|E].
  - now apply Hin in E; [|left].
  - rewrite E, eqs_refl. cbn [negb]. apply IH.
    + intros m Hm. apply Hold. now right.
    + intros m Hm. apply Hin. now right.
Qed.

End NoDeclarations.

(** *** The moves the rename handler saves *)

Section SavedMoves.

Lemma collectMove_saves (tree : option ProjectTreeNode)
  (moves : list FileMovement) (file : Rename) :
  let oldRobloxPath :=
    convertToRobloxPath (backslashesToSlashes (relativePathOld file)) tree in
  let newRobloxPath :=
    convertToRobloxPath (backslashesToSlashes (relativePathNew file)) tree in
  collectMove tree moves file
  = if eqs oldRobloxPath newRobloxPath then moves
    else moves ++ [{| oldPath := oldRobloxPath; newPath := newRobloxPath |}].
Proof.
  unfold collectMove. cbn zeta. rewrite !convertToRobloxPath_truthy.
  now destruct (eqs _ _).
Qed.

Lemma collectMoves_from (tree : option ProjectTreeNode) (files : list Rename) :
  forall moves move,
    In move (fold_left (collectMove tree) files moves)
    <-> In move moves
        \/ exists file,
             In file files
             /\ oldPath move
                = convertToRobloxPath
                    (backslashesToSlashes (relativePathOld file)) tree
             /\ newPath move
                = convertToRobloxPath
                    (backslashesToSlashes (relativePathNew file)) tree
             /\ oldPath move <> newPath move.
Proof.
  induction files as [|file files IH]; intros moves move; cbn [fold_left].
  - split; [now left|]. intros [H|(file & [] & _)]. exact H.
  - rewrite IH, collectMove_saves. cbn zeta.
    destruct (eqs _ _) eqn:E.
    + apply eqs_eq in E. split.
      * intros [H|(f & Hf & Hrest)]; [now left|].
        right. exists f. split; [now right|exact Hrest].
      * intros [H|(f & [<-|Hf] & Ho & Hn & Hne)]; [now left| |].
        -- exfalso. apply Hne. now rewrite Ho, Hn.
        -- right. exists f. now split.
    + apply eqs_neq in E. split.
      * intros [H|(f & Hf & Hrest)].
        -- apply in_app_or in H as [H|[<-|[]]]; [now left|].
           right. exists file. split; [now left|]. now split.
        -- right. exists f. split; [now right|exact Hrest].
      * intros [H|(f & [<-|Hf] & Ho & Hn & Hne)].
        -- left. apply in_or_app. now left.
        -- left. apply in_or_app. right. left.
           destruct move as [o n]. cbn in Ho, Hn. now subst.
        -- right. exists f. now split.
Qed.

(** X15: the moves the rename handler saves are those of the renames
    whose two Roblox paths differ, and no other: the tests for an empty
    path never drop a rename. *)
Theorem saved_moves_are_changed_paths (tree : option ProjectTreeNode)
  (files : list Rename) (move : FileMovement) :
  In move (collectMoves tree files)
  <-> exists file,
        In file files
        /\ oldPath move
           = convertToRobloxPath
               (backslashesToSlashes (relativePathOld file)) tree
        /\ newPath move
           = convertToRobloxPath
               (backslashesToSlashes (relativePathNew file)) tree
        /\ oldPath move <> newPath move.
Proof.
  unfold collectMoves. rewrite collectMoves_from.
  split; [now intros [[]|H]|now right].
Qed.

End SavedMoves.

(** *** The assigned expression *)

Section CleanedValues.

Lemma dropWhile_app_stops (f : ascii -> bool) (a : jsstring) (c : ascii)
  (b : jsstring) :
  f c = false -> dropWhile f (a ++ c :: b) = dropWhile f a ++ c :: b.
Proof.
  intros Hc. induction a as [|d a IH]; simpl.
  - now rewrite Hc.
  - now destruct (f d).
Qed.

Lemma dropWhile_idempotent (f : ascii -> bool) (s : jsstring) :
  dropWhile f (dropWhile f s) = dropWhile f s.
Proof.
  destruct (dropWhile f s) as [|c rest] eqn:E; [reflexivity|].
  apply dropWhile_head in E. simpl. now rewrite E.
Qed.

Lemma trim_trimmed (s : jsstring) : trim (trim s) = trim s.
Proof.
  unfold trim.
  destruct (dropWhile isSpace s) as [|c d] eqn:E; [reflexivity|].
  apply dropWhile_head in E.
  cbn [rev]. rewrite (dropWhile_app_stops isSpace (rev d) c [] E).
  rewrite rev_app_distr. cbn [rev app].
  cbn [dropWhile]. rewrite E.
  change (c :: rev (dropWhile isSpace (rev d)))
    with (rev [c] ++ rev (dropWhile isSpace (rev d))).
  rewrite <- rev_app_distr, rev_involutive.
  rewrite <- (dropWhile_app_stops isSpace (rev d) c [] E).
  now rewrite dropWhile_idempotent.
Qed.

Lemma trim_within (s : jsstring) : exists a b, s = a ++ trim s ++ b.
Proof.
  unfold trim.
  exists (takeWhile isSpace s),
         (rev (takeWhile isSpace (rev (dropWhile isSpace s)))).
  rewrite <- rev_app_distr, takeWhile_dropWhile, rev_involutive.
  now rewrite takeWhile_dropWhile.
Qed.

Lemma splitHead_prefix (p s : jsstring) : exists b, s = splitHead p s ++ b.
Proof.
  induction s as [|c s [b IH]]; simpl.
  - destruct (startsWith [] p); now exists [].
  - destruct (startsWith (c :: s) p); [now exists (c :: s)|].
    exists b. simpl. now f_equal.
Qed.

Lemma splitHead_excludes (p s : jsstring) :
  p <> [] -> includes (splitHead p s) p = false.
Proof.
  intros Hp.
  assert (Hnil : includes [] p = false)
    by (destruct p; [contradiction|reflexivity]).
  induction s as [|c s IH]; simpl splitHead.
  - now destruct (startsWith [] p).
  - destruct (startsWith (c :: s) p) eqn:E; [exact Hnil|].
    rewrite includes_cons, IH, orb_false_r.
    destruct (startsWith (c :: splitHead p s) p) eqn:E'; [|reflexivity].
    destruct (splitHead_prefix p s) as [b Hb].
    apply (startsWith_extend _ b) in E'. simpl app in E'.
    rewrite <- Hb in E'. congruence.
Qed.

Lemma removelast_prefix (s : jsstring) : exists b, s = removelast s ++ b.
Proof.
  destruct s as [|c s]; [now exists []|].
  exists [last (c :: s) c]. now apply app_removelast_last.
Qed.

(** X16: the expression [parseVariablesToAbsoluteMap] works with, once
    cleaned up, is a piece of the assigned text that holds no comment
    marker and has no white space at either end. *)
Theorem cleanup_result (rawValue : jsstring) :
  (exists before after, rawValue = before ++ cleanup rawValue ++ after)
  /\ includes (cleanup rawValue) (str "--") = false
  /\ trim (cleanup rawValue) = cleanup rawValue.
Proof.
  unfold cleanup.
  set (v := if includes rawValue (str "--")
            then splitHead (str "--") rawValue else rawValue).
  assert (Hv : (exists b, rawValue = v ++ b)
               /\ includes v (str "--") = false).
  { subst v. destruct (includes rawValue (str "--")) eqn:E.
    - split; [apply splitHead_prefix|now apply splitHead_excludes].
    - split; [exists []; now rewrite app_nil_r|exact E]. }
  destruct Hv as [[b Hb] Hex].
  assert (Hpiece : exists x y,
             v = x ++ (if endsWith (trim v) (str ";")
                       then trim (dropLast (trim v)) else trim v) ++ y).
  { destruct (trim_within v) as (x & y & Hxy).
    destruct (endsWith (trim v) (str ";")); [|now exists x, y].
    unfold dropLast.
    destruct (removelast_prefix (trim v)) as [z Hz].
    destruct (trim_within (removelast (trim v))) as (x' & y' & Hxy').
    exists (x ++ x'), (y' ++ z ++ y).
    rewrite Hxy at 1. rewrite Hz at 1. rewrite Hxy' at 1.
    now rewrite <- !app_assoc. }
  destruct Hpiece as (x & y & Hxy).
  split; [|split].
  - exists x, (y ++ b). rewrite Hb at 1. rewrite Hxy at 1.
    now rewrite <- !app_assoc.
  - rewrite Hxy in Hex. now apply includes_within in Hex.
  - destruct (endsWith (trim v) (str ";")); apply trim_trimmed.
Qed.

End CleanedValues.

(** *** The service pattern *)

Section ServicePattern.

(** X17: the service pattern accepts exactly the strings that are a
    service access, with a name that is not empty and holds no double
    quote, followed by a rest without a line terminator; its two groups
    are that name and that rest. *)
Theorem serviceRegex_accepts (path name rest : jsstring) :
  serviceRegex path = Some (name, rest)
  <-> path = getService name ++ rest
      /\ name <> [] /\ noQuote name = true /\ noLineTerminator rest = true.
Proof.
  split.
  - apply serviceRegex_shape.
  - intros (-> & Hne & Hq & Hlt). now apply serviceRegex_getService.
Qed.

End ServicePattern.

(** *** The first rewriter: the matches it replaces *)

Section LegacyMatches.

Lemma replacedMatches_sound (oldPath : jsstring) :
  oldPath <> [] ->
  forall s index skip offset,
    In offset (replacedMatches oldPath index skip s) ->
    index + skip <= offset
    /\ startsWith (skipn (offset - index) s) oldPath = true
    /\ wordCharAt (List.length oldPath) (skipn (offset - index) s) = false.
Proof.
  intros Hne. induction s as [|c s IH]; intros index skip offset;
    cbn [replacedMatches]; [intros []|].
  assert (Hstep : forall k,
    In offset (replacedMatches oldPath (S index) k s) ->
    index + S k <= offset
    /\ startsWith (skipn (offset - index) (c :: s)) oldPath = true
    /\ wordCharAt (List.length oldPath)
         (skipn (offset - index) (c :: s)) = false).
  { intros k H. apply IH in H as (Hle & Hs & Hw).
    replace (offset - index) with (S (offset - S index)) by lia.
    split; [lia|]. now split. }
  destruct skip as [|k]; [|apply Hstep].
  destruct (startsWith (c :: s) oldPath) eqn:Es.
  - destruct (wordCharAt (List.length oldPath) (c :: s)) eqn:Ew.
    + intros H. apply Hstep in H as (Hle & Hrest). split; [lia|exact Hrest].
    + intros [<-|H].
      * rewrite Nat.sub_diag. cbn [skipn]. split; [lia|now split].
      * apply Hstep in H as (Hle & Hrest). split; [lia|exact Hrest].
  - intros H. apply Hstep in H as (Hle & Hrest). split; [lia|exact Hrest].
Qed.

Lemma replacedMatches_apart (oldPath : jsstring) :
  oldPath <> [] ->
  forall s index skip,
    StronglySorted (fun i j => i + List.length oldPath <= j)
      (replacedMatches oldPath index skip s).
Proof.
  intros Hne.
  assert (Hlen : 0 < List.length oldPath)
    by (destruct oldPath; [contradiction|simpl; lia]).
  induction s as [|c s IH]; intros index skip; cbn [replacedMatches];
    [constructor|].
  destruct skip as [|k]; [|apply IH].
  destruct (startsWith (c :: s) oldPath); [|apply IH].
  destruct (wordCharAt (List.length oldPath) (c :: s)); [apply IH|].
  constructor; [apply IH|].
  apply Forall_forall. intros j Hj.
  apply (replacedMatches_sound oldPath Hne) in Hj as [Hle _]. lia.
Qed.

Lemma startsWith_includes (i : nat) (s p : jsstring) :
  startsWith (skipn i s) p = true -> includes s p = true.
Proof.
  intros H. apply startsWith_prefix in H as [r Hr].
  rewrite <- (firstn_skipn i s), Hr. apply includes_occurrence.
Qed.

Lemma wordCharAt_skipn (i n : nat) (text : jsstring) :
  wordCharAt n (skipn i text) = wordCharAt (i + n) text.
Proof. unfold wordCharAt. now rewrite nth_error_skipn. Qed.

(** X18: the matches the first rewriter replaces in a text.  Each is
    an occurrence of the old path that no word character follows (so
    Module is not replaced inside Module2); they come in increasing
    order and do not overlap; a text that does not hold the old path
    gets no edit. *)
Theorem legacy_edits_are_whole_matches (oldPath text : jsstring)
  (offsets : list nat) :
  fileEdits oldPath text = Some offsets ->
  (forall offset,
      In offset offsets ->
      startsWith (skipn offset text) oldPath = true
      /\ wordCharAt (offset + List.length oldPath) text = false)
  /\ StronglySorted (fun i j => i + List.length oldPath <= j) offsets
  /\ (includes text oldPath = false -> offsets = []).
Proof.
  unfold fileEdits. intros H.
  assert (Hne : oldPath <> []) by (destruct oldPath; [discriminate|easy]).
  assert (E : offsets = replacedMatches oldPath 0 0 text)
    by (destruct oldPath; [discriminate|now injection H]).
  subst offsets. clear H.
  assert (Hsound : forall offset,
    In offset (replacedMatches oldPath 0 0 text) ->
    startsWith (skipn offset text) oldPath = true
    /\ wordCharAt (offset + List.length oldPath) text = false).
  { intros offset Hin.
    apply (replacedMatches_sound oldPath Hne) in Hin as (_ & Hs & Hw).
    rewrite Nat.sub_0_r in Hs, Hw. rewrite wordCharAt_skipn in Hw.
    now split. }
  split; [exact Hsound|]. split; [now apply replacedMatches_apart|].
  intros Habsent.
  destruct (replacedMatches oldPath 0 0 text) as [|offset rest]; [reflexivity|].
  destruct (Hsound offset (or_introl eq_refl)) as [Hs _].
  apply startsWith_includes in Hs. congruence.
Qed.

Lemma performRefactoring_added (oldPath : jsstring) :
  oldPath <> [] ->
  forall files edit count,
    exists added,
      performRefactoring oldPath files edit count
      = Some (edit ++ added, count + List.length added)
      /\ forall fileUri offset,
           In (fileUri, offset) added
           <-> exists text offsets,
                 In (fileUri, Normal text) files
                 /\ fileEdits oldPath text = Some offsets
                 /\ In offset offsets.
Proof.
  intros Hne. induction files as [|[fileUri [text|]] files IH];
    intros edit count; cbn [performRefactoring].
  - exists []. rewrite app_nil_r, Nat.add_0_r. split; [reflexivity|].
    intros f offset. split; [intros []|now intros (t & os & [] & _)].
  - assert (Hf : fileEdits oldPath text
                 = Some (replacedMatches oldPath 0 0 text))
      by (unfold fileEdits; destruct oldPath; [contradiction|reflexivity]).
    rewrite Hf.
    destruct (IH (edit ++ map (fun offset => (fileUri, offset))
                          (replacedMatches oldPath 0 0 text))
                 (count + List.length (replacedMatches oldPath 0 0 text)))
      as (added & -> & Hin).
    exists (map (fun offset => (fileUri, offset))
              (replacedMatches oldPath 0 0 text) ++ added).
    split.
    + rewrite <- app_assoc, length_app, length_map. f_equal. f_equal. lia.
    + intros f offset. split.
      * intros H. apply in_app_or in H as [H|H].
        -- apply in_map_iff in H as (o & [= <- <-] & Ho).
           exists text, (replacedMatches oldPath 0 0 text).
           split; [now left|]. now split.
        -- apply Hin in H as (t & os & Ht & Hrest).
           exists t, os. split; [now right|exact Hrest].
      * intros (t & os & [[= <- <-]|Ht] & Ho & Hino); apply in_or_app.
        -- left. rewrite Hf in Ho. injection Ho as <-.
           apply in_map_iff. now exists offset.
        -- right. apply Hin. now exists t, os.
  - destruct (IH edit count) as (added & -> & Hin).
    exists added. split; [reflexivity|].
    intros f offset. rewrite Hin. split.
    + intros (t & os & Ht & Hrest).
      exists t, os. split; [now right|exact Hrest].
    + intros (t & os & [[=]|Ht] & Hrest). now exists t, os.
Qed.

(** X19: for an old path that is not empty the first rewriter returns:
    the count is the number of edits staged, and the edits are the
    matches replaced in the texts of the files that could be opened; a
    file that cannot be opened is passed over and the others are still
    searched. *)
Theorem legacy_count_is_number_of_edits (oldPath : jsstring)
  (files : list (jsstring * Completion jsstring)) :
  oldPath <> [] ->
  exists edits,
    performRefactoring oldPath files [] 0 = Some (edits, List.length edits)
    /\ forall fileUri offset,
         In (fileUri, offset) edits
         <-> exists text offsets,
               In (fileUri, Normal text) files
               /\ fileEdits oldPath text = Some offsets
               /\ In offset offsets.
Proof.
  intros Hne.
  destruct (performRefactoring_added oldPath Hne files [] 0)
    as (added & E & Hin).
  exists added. split; [exact E|exact Hin].
Qed.

End LegacyMatches.

(** *** The further properties on example inputs *)

Section FurtherWitnesses.

Lemma findPathInTree_sound_witness :
  exists keys node,
    [str "ReplicatedStorage"; str "Shared"] = [] ++ keys
    /\ Reaches projectExample keys node
    /\ declaresPath node (str "src/shared").
Proof.
  exact (findPathInTree_sound projectExample (str "src/shared") []
           [str "ReplicatedStorage"; str "Shared"] eq_refl).
Defined.

Lemma findPathInTree_complete_witness :
  findPathInTree projectExample (str "src/client") [] = None
  /\ forall keys node,
       Reaches projectExample keys node ->
       ~ declaresPath node (str "src/client").
Proof.
  split; [reflexivity|].
  exact (findPathInTree_complete projectExample (str "src/client") [] eq_refl).
Defined.

Lemma tree_without_paths_is_ignored_witness :
  convertToRobloxPath (str "src/Workspace/Mod.lua") (Some treeWithoutPaths)
  = convertToRobloxPath (str "src/Workspace/Mod.lua") None.
Proof.
  apply tree_without_paths_is_ignored.
  intros keys node targetPath Hreach (props & -> & Hpath).
  inversion Hreach as [|props0 key value keys0 node0 Hin Hkey Hsub]; subst.
  - discriminate Hpath.
  - destruct Hin as [[= <- <-]|[[= <- <-]|[]]].
    + inversion Hsub.
    + inversion Hsub as [|props1 key1 value1 keys1 node1 Hin1 Hkey1 Hsub1];
        subst.
      * discriminate Hpath.
      * destruct Hin1 as [[= <- <-]|[]]. inversion Hsub1.
Defined.

Lemma root_match_is_discarded_witness :
  convertToRobloxPath (str "src/Mod.lua") (Some (NodeObject rootMapped))
  = convertToRobloxPath (str "src/Mod.lua") None.
Proof.
  exact (root_match_is_discarded rootMapped (str "src/Mod.lua") eq_refl).
Defined.

Lemma moduleNameOf_extension_witness :
  moduleNameOf (str "Mod.server" ++ str "." ++ str "LUA") = str "Mod".
Proof.
  pose proof (moduleNameOf_extension (str "Mod.server") (str "LUA") eq_refl)
    as H.
  change (isLuaExtension (str "LUA")) with true in H. cbv iota in H.
  exact (proj2 H (str "Mod") (str "server") eq_refl eq_refl).
Defined.


Lemma applyMoves_flag_witness :
  (false = true -> true = true)
  /\ (true = false ->
      str "local SSS = " ++ serviceS ++ lf
      ++ str "local m = require(SSS.NewModule)" ++ lf
      = aliasReference).
Proof.
  exact (applyMoves_flag [moduleMove] aliasReference false _ true eq_refl).
Defined.

Lemma performBatchRefactoring_edits_witness :
  exists processed rest,
    workspaceFiles = processed ++ rest
    /\ Staged [moduleMove] ignoresNodeModules processed
         [(str "src/a.lua",
           str "local SSS = " ++ serviceS ++ lf
           ++ str "local m = require(SSS.NewModule)" ++ lf)]
    /\ exists file rest',
         rest = file :: rest' /\ throwsAt ignoresNodeModules file.
Proof.
  exact (performBatchRefactoring_edits [moduleMove] ignoresNodeModules
           workspaceFiles
           [(str "src/a.lua",
             str "local SSS = " ++ serviceS ++ lf
             ++ str "local m = require(SSS.NewModule)" ++ lf)]
           Thrown eq_refl).
Defined.

Lemma first_project_file_decides_witness :
  getProjectJson brokenProjectWorkspace = None.
Proof.
  refine (proj1 (proj2 (first_project_file_decides brokenProjectWorkspace
                          [str "README.md"] (str "default.project.json")
                          [str "place.project.json"] eq_refl eq_refl eq_refl)
                   _)).
  intros tree H. discriminate H.
Defined.

Lemma text_without_local_has_no_aliases_witness :
  parseVariablesToAbsoluteMap plainReference = []
  /\ forall oldPath newPath,
       applyNestedRefactoring plainReference oldPath newPath = plainReference.
Proof.
  exact (text_without_local_has_no_aliases plainReference eq_refl).
Defined.

Lemma unreferenced_file_is_not_edited_witness :
  applyMoves [moduleMove] plainReference false = Some (plainReference, false).
Proof.
  apply unreferenced_file_is_not_edited.
  - reflexivity.
  - intros move [<-|[]]. reflexivity.
  - intros move [<-|[]]. discriminate.
Defined.

Lemma legacy_edits_are_whole_matches_witness :
  startsWith (skipn 8 legacyText) (str "Module") = true
  /\ wordCharAt (8 + List.length (str "Module")) legacyText = false.
Proof.
  exact (proj1 (legacy_edits_are_whole_matches (str "Module") legacyText
                  [8; 24] eq_refl) 8 (or_introl eq_refl)).
Defined.

Lemma legacy_count_is_number_of_edits_witness :
  exists edits,
    performRefactoring (str "Module")
      [(str "a.lua", Normal legacyText); (str "b.lua", Thrown)] [] 0
    = Some (edits, List.length edits)
    /\ forall fileUri offset,
         In (fileUri, offset) edits
         <-> exists text offsets,
               In (fileUri, Normal text)
                 [(str "a.lua", Normal legacyText); (str "b.lua", Thrown)]
               /\ fileEdits (str "Module") text = Some offsets
               /\ In offset offsets.
Proof.
  apply legacy_count_is_number_of_edits. discriminate.
Defined.

End FurtherWitnesses.
